(** * go-webserver: middleware chain, access logging, trace header
      normalisation, development switch, label loading and graceful shutdown.

    The Go program is embedded shallowly.  Values of Go's [int] (64 bit on the
    amd64 target the Dockerfile builds for) are integers of [Z] with the
    wrap-around written out, strings are byte strings ([string]), Go maps are
    [gmap]s, the [http.ResponseWriter] interface is a type class, and the
    process-wide variables ([logger], [podLabels], ...) are fields of an
    explicit [World] that every handler threads through.  A handler returns
    its outcome (it may panic), the writer and the world it leaves behind.

    What lies outside the repository is modelled as far as the program uses
    it: [strconv.ParseUint] and [strconv.Atoi] follow the Go sources,
    [strings.Index], [Split] and [ReplaceAll] are written on byte strings,
    gorilla/mux dispatches on the exact path, and a request is a value (the
    one mutation of a request, [fixTracingHeader] setting a header, happens
    before the request is handed on).  [main]'s goroutines are a transition
    system whose environment schedules them, lets time pass, delivers the
    signal and decides what [ListenAndServe] (which fails only while it
    binds) and [Shutdown] return. *)

From Stdlib Require Import ZArith Lia Bool Ascii.
From Stdlib Require Import Decimal DecimalPos DecimalN DecimalString.
From stdpp Require Import gmap strings list fin_maps.

Local Open Scope Z_scope.

(** ** Machine integers *)

(** Go's [int]/[int64]: two's complement on 64 bits. *)
Definition wrap64 (z : Z) : Z := (z + 2 ^ 63) mod 2 ^ 64 - 2 ^ 63.

(** Go's [uint64] and [uint32] conversions. *)
Definition uint64 (z : Z) : Z := z mod 2 ^ 64.
Definition uint32 (z : Z) : Z := z mod 2 ^ 32.

(** ** The slice of net/http the program uses *)

Definition bytes := list Byte.byte.

Inductive error := Err (msg : string).

(** [http.Header] is [map[string][]string]; [Get] returns the first value of
    a key or the empty string, [Set] replaces the values by a single one.
    Every key the program uses is already in canonical MIME form. *)
Definition Header_Get (h : gmap string (list string)) (key : string) : string :=
  match h !! key with
  | Some (v :: _) => v
  | _ => EmptyString
  end.

Definition Header_Set (h : gmap string (list string)) (key value : string)
  : gmap string (list string) :=
  <[key := [value]]> h.

(** A request context: only its deadline (nanoseconds) matters here. *)
Record Context := { deadline : option Z }.

Record Request := {
  Method : string;
  URL : string;
  Path : string;
  Query : gmap string (list string);
  Proto : string;
  RemoteAddr : string;
  Host : string;
  ReqHeader : gmap string (list string);
  ctx : Context
}.

Definition WithContext (r : Request) (c : Context) : Request :=
  {| Method := Method r; URL := URL r; Path := Path r; Query := Query r; Proto := Proto r;
     RemoteAddr := RemoteAddr r; Host := Host r; ReqHeader := ReqHeader r;
     ctx := c |}.

Definition WithHeader (r : Request) (h : gmap string (list string)) : Request :=
  {| Method := Method r; URL := URL r; Path := Path r; Query := Query r; Proto := Proto r;
     RemoteAddr := RemoteAddr r; Host := Host r; ReqHeader := h;
     ctx := ctx r |}.

(** The [http.ResponseWriter] interface.  [rw_HeaderSet k v] stands for
    [w.Header().Set(k, v)]. *)
Class ResponseWriter (W : Type) := {
  rw_HeaderSet : string -> string -> W -> W;
  rw_WriteHeader : Z -> W -> W;
  rw_Write : bytes -> W -> W * (Z * option error)
}.

(** ** Process state *)

Record AccessLine := {
  al_remote : string;
  al_time : Z;
  al_method : string;
  al_url : string;
  al_proto : string;
  al_status : Z;
  al_length : Z;
  al_millis : Z
}.

Inductive LogLine :=
| Debugf (msg : string)
| Infof (msg : string)
| Errorf (msg : string)
| Fatalf (msg : string)
| Access (l : AccessLine).

(** The globals of package main and the part of the operating system the
    handlers read: the clock (nanoseconds), the logger's output, the number of
    context timers not yet released, the two lazily filled caches, the process
    environment as [os.Environ] lists it (of a repeated key the runtime
    keeps the first entry only), the file system ([inl e] when
    [os.Open] fails, otherwise the lines the scanner yields and the scanner's
    final error), and the network as [DefaultHTTPClient.Get] followed by
    [ioutil.ReadAll] sees it. *)
Record World := {
  clock : Z;
  logged : list LogLine;
  timers : Z;
  podLabels : option (gmap string string);
  environmentVariables : option (gmap string string);
  environ : list string;
  files : string -> error + (list string * option error);
  fetch : string -> error + (error + bytes)
}.

Definition set_logged (g : World) (l : list LogLine) : World :=
  {| clock := clock g; logged := l; timers := timers g;
     podLabels := podLabels g; environmentVariables := environmentVariables g;
     environ := environ g; files := files g; fetch := fetch g |}.

Definition set_timers (g : World) (n : Z) : World :=
  {| clock := clock g; logged := logged g; timers := n;
     podLabels := podLabels g; environmentVariables := environmentVariables g;
     environ := environ g; files := files g; fetch := fetch g |}.

Definition set_podLabels (g : World) (m : option (gmap string string)) : World :=
  {| clock := clock g; logged := logged g; timers := timers g;
     podLabels := m; environmentVariables := environmentVariables g;
     environ := environ g; files := files g; fetch := fetch g |}.

Definition set_environmentVariables (g : World) (m : option (gmap string string))
  : World :=
  {| clock := clock g; logged := logged g; timers := timers g;
     podLabels := podLabels g; environmentVariables := m;
     environ := environ g; files := files g; fetch := fetch g |}.

Definition emit (l : LogLine) (g : World) : World :=
  set_logged g (logged g ++ [l]).

Definition emits (ls : list LogLine) (g : World) : World :=
  set_logged g (logged g ++ ls).

(** A handler either returns or panics. *)
Inductive outcome := Done | Panic (msg : string).

(** [http.Handler]: [ServeHTTP(w, r)] against any implementation of the
    writer interface. *)
Definition Handler : Type :=
  forall (W : Type), ResponseWriter W -> W -> Request -> World -> outcome * W * World.

(** ** middleware.go *)

Definition adapter : Type := Handler -> Handler.

(** [for _, middlewareFn := range middleware { h = middlewareFn(h) }; return h] *)
Fixpoint adapt (h : Handler) (middleware : list adapter) : Handler :=
  match middleware with
  | [] => h
  | middlewareFn :: rest => adapt (middlewareFn h) rest
  end.

Module statusWriter.
Record t (W : Type) := mk { inner : W; status : Z; length : Z }.
Arguments mk {W}.
Arguments inner {W}.
Arguments status {W}.
Arguments length {W}.
End statusWriter.

Definition StatusOK : Z := 200.

Definition statusWriter_WriteHeader {W} `{ResponseWriter W}
  (status : Z) (w : statusWriter.t W) : statusWriter.t W :=
  statusWriter.mk (rw_WriteHeader status (statusWriter.inner w))
                  status (statusWriter.length w).

Definition statusWriter_Write {W} `{ResponseWriter W}
  (b : bytes) (w : statusWriter.t W) : statusWriter.t W * (Z * option error) :=
  let st := if statusWriter.status w =? 0 then StatusOK else statusWriter.status w in
  let '(i, (n, err)) := rw_Write b (statusWriter.inner w) in
  (statusWriter.mk i st (wrap64 (statusWriter.length w + n)), (n, err)).

(** The embedded [http.ResponseWriter] promotes [Header]. *)
Definition statusWriter_HeaderSet {W} `{ResponseWriter W}
  (k v : string) (w : statusWriter.t W) : statusWriter.t W :=
  statusWriter.mk (rw_HeaderSet k v (statusWriter.inner w))
                  (statusWriter.status w) (statusWriter.length w).

#[export] Instance statusWriter_ResponseWriter {W} `{ResponseWriter W}
  : ResponseWriter (statusWriter.t W) := {
  rw_HeaderSet := statusWriter_HeaderSet;
  rw_WriteHeader := statusWriter_WriteHeader;
  rw_Write := statusWriter_Write
}.

(** [time.Since(start).Nanoseconds() / (int64(time.Millisecond) / int64(time.Nanosecond))] *)
Definition durationInMilliSeconds (start now : Z) : Z :=
  Z.quot (wrap64 (now - start)) (Z.quot 1000000 1).

Definition logHTTPRequest : adapter :=
  fun h W RW w r g =>
    let start := clock g in
    let sw := statusWriter.mk w 0 0 in
    match h (statusWriter.t W) _ sw r g with
    | (Done, sw', g') =>
        (Done, statusWriter.inner sw',
         emit (Access {| al_remote := RemoteAddr r; al_time := clock g';
                         al_method := Method r; al_url := URL r;
                         al_proto := Proto r;
                         al_status := statusWriter.status sw';
                         al_length := statusWriter.length sw';
                         al_millis := durationInMilliSeconds start (clock g') |})
              g')
    | (Panic m, sw', g') => (Panic m, statusWriter.inner sw', g')
    end.

Definition requestTimeoutDuration : Z := 60 * 1000000000.

(** [context.WithTimeout]: the earlier of the parent's deadline and
    [now + d]; one more timer is live until [cancel] runs. *)
Definition WithTimeout (parent : Context) (d : Z) (g : World) : Context * World :=
  let dl := clock g + d in
  ({| deadline := Some (match deadline parent with
                        | Some p => Z.min p dl
                        | None => dl
                        end) |},
   set_timers g (timers g + 1)).

Definition cancel (g : World) : World := set_timers g (timers g - 1).

(** [defer cancel()] runs on return and on panic alike. *)
Definition addRequestTimeout : adapter :=
  fun h W RW w r g =>
    let '(c, g1) := WithTimeout (ctx r) requestTimeoutDuration g in
    let r := WithContext r c in
    let '(o, w', g2) := h W RW w r g1 in
    (o, w', cancel g2).

(** ** Terminal handlers given by the calls they make

    A handler that terminates is, as far as the writer can tell, a finite
    sequence of calls in which each next call may depend on what the previous
    [Write] returned. *)
Inductive script :=
| Return
| CallHeaderSet (key value : string) (k : script)
| CallWriteHeader (status : Z) (k : script)
| CallWrite (b : bytes) (k : Z -> option error -> script).

Fixpoint play {W} `{ResponseWriter W} (s : script) (w : W) : W :=
  match s with
  | Return => w
  | CallHeaderSet key value k => play k (rw_HeaderSet key value w)
  | CallWriteHeader status k => play k (rw_WriteHeader status w)
  | CallWrite b k =>
      let '(w', (n, err)) := rw_Write b w in play (k n err) w'
  end.

Definition scripted (s : Request -> script) : Handler :=
  fun W RW w r g => (Done, play (s r) w, g).

(** The calls a script makes when it runs against a writer, with the results
    it sees. *)
Inductive call :=
| HeaderSetCall (key value : string)
| WriteHeaderCall (status : Z)
| WriteCall (b : bytes) (n : Z) (err : option error).

Fixpoint calls {W} `{ResponseWriter W} (s : script) (w : W) : list call :=
  match s with
  | Return => []
  | CallHeaderSet key value k =>
      HeaderSetCall key value :: calls k (rw_HeaderSet key value w)
  | CallWriteHeader status k =>
      WriteHeaderCall status :: calls k (rw_WriteHeader status w)
  | CallWrite b k =>
      let '(w', (n, err)) := rw_Write b w in
      WriteCall b n err :: calls (k n err) w'
  end.

(** The status codes written explicitly, in call order. *)
Fixpoint explicit_statuses (cs : list call) : list Z :=
  match cs with
  | [] => []
  | WriteHeaderCall status :: cs' => status :: explicit_statuses cs'
  | _ :: cs' => explicit_statuses cs'
  end.

(** The number of bytes the [Write] calls report as written. *)
Fixpoint bytes_written (cs : list call) : Z :=
  match cs with
  | [] => 0
  | WriteCall _ n _ :: cs' => n + bytes_written cs'
  | _ :: cs' => bytes_written cs'
  end.

Fixpoint has_write (cs : list call) : bool :=
  match cs with
  | [] => false
  | WriteCall _ _ _ :: _ => true
  | _ :: cs' => has_write cs'
  end.

(** What a [statusWriter] holds after it has forwarded a list of calls. *)
Fixpoint status_after (cs : list call) (st : Z) : Z :=
  match cs with
  | [] => st
  | WriteHeaderCall status :: cs' => status_after cs' status
  | WriteCall _ _ _ :: cs' => status_after cs' (if st =? 0 then StatusOK else st)
  | HeaderSetCall _ _ :: cs' => status_after cs' st
  end.

Fixpoint length_after (cs : list call) (len : Z) : Z :=
  match cs with
  | [] => len
  | WriteCall _ n _ :: cs' => length_after cs' (wrap64 (len + n))
  | _ :: cs' => length_after cs' len
  end.

(** A writer in the image of net/http's response on a connection that takes
    every byte: the first status wins, a [Write] before any status implies
    200, and every byte is appended to the body.  It stands for net/http's
    response where the first status is a code net/http accepts (100 to 999)
    and allows a body (not 1xx, 204 or 304), on a request other than HEAD. *)
Record response := {
  resp_status : option Z;
  resp_header : gmap string (list string);
  resp_body : bytes
}.

Definition response_empty : response :=
  {| resp_status := None; resp_header := ∅; resp_body := [] |}.

#[export] Instance response_ResponseWriter : ResponseWriter response := {
  rw_HeaderSet k v w :=
    {| resp_status := resp_status w;
       resp_header := Header_Set (resp_header w) k v;
       resp_body := resp_body w |};
  rw_WriteHeader status w :=
    {| resp_status := match resp_status w with
                      | Some s => Some s
                      | None => Some status
                      end;
       resp_header := resp_header w;
       resp_body := resp_body w |};
  rw_Write b w :=
    ({| resp_status := match resp_status w with
                       | Some s => Some s
                       | None => Some StatusOK
                       end;
        resp_header := resp_header w;
        resp_body := (resp_body w ++ b)%list |},
     (Z.of_nat (length b), None))
}.

(** The access line a handler under [logHTTPRequest] leaves last in the log. *)
Definition last_access (g : World) : option AccessLine :=
  match last (logged g) with
  | Some (Access l) => Some l
  | _ => None
  end.

(** A middleware that only announces itself on the way in and on the way
    out, used to observe the order in which a chain runs. *)
Definition announce (name : string) : adapter :=
  fun h W RW w r g =>
    match h W RW w r (emit (Debugf ("enter " +:+ name)) g) with
    | (Done, w', g') => (Done, w', emit (Debugf ("leave " +:+ name)) g')
    | (Panic m, w', g') => (Panic m, w', g')
    end.

(** The lines a chain of [announce]s logs on the way in and on the way out. *)
Definition enter_lines (names : list string) : list LogLine :=
  (fun n => Debugf ("enter " +:+ n)) <$> rev names.

Definition leave_lines (names : list string) : list LogLine :=
  (fun n => Debugf ("leave " +:+ n)) <$> names.

(** ** strconv *)

Inductive NumError := ErrSyntax | ErrRange.

Definition byte_of (c : ascii) : Z := Z.of_N (N_of_ascii c).

(** The digit a byte stands for in [ParseUint]: 0-9, a-z, A-Z. *)
Definition digit_of (c : ascii) : option Z :=
  let b := byte_of c in
  if (48 <=? b) && (b <=? 57) then Some (b - 48)
  else if (97 <=? b) && (b <=? 122) then Some (b - 97 + 10)
  else if (65 <=? b) && (b <=? 90) then Some (b - 65 + 10)
  else None.

Definition maxUint64 : Z := 2 ^ 64 - 1.

(** The loop of [strconv.ParseUint] over the bytes of the string. *)
Fixpoint ParseUint_loop (base cutoff maxVal n : Z) (s : string)
  : Z * option NumError :=
  match s with
  | EmptyString => (n, None)
  | String c s' =>
      match digit_of c with
      | None => (0, Some ErrSyntax)
      | Some d =>
          if base <=? d then (0, Some ErrSyntax)
          else if cutoff <=? n then (maxVal, Some ErrRange)
          else
            let n := uint64 (n * base) in
            let n1 := uint64 (n + d) in
            if (n1 <? n) || (maxVal <? n1) then (maxVal, Some ErrRange)
            else ParseUint_loop base cutoff maxVal n1 s'
      end
  end.

(** [strconv.ParseUint(s, base, bitSize)] for an explicit base in 2..36 and a
    bit size in 1..64, the only way the program calls it. *)
Definition ParseUint (s : string) (base bitSize : Z) : Z * option NumError :=
  match s with
  | EmptyString => (0, Some ErrSyntax)
  | _ =>
      let cutoff := maxUint64 / base + 1 in
      let maxVal := uint64 (2 ^ bitSize - 1) in
      ParseUint_loop base cutoff maxVal 0 s
  end.

(** [strconv.ParseInt(s, 10, 0)]: a sign, then [ParseUint], then the range of
    a 64-bit [int]. *)
Definition ParseInt10 (s : string) : Z * option NumError :=
  match s with
  | EmptyString => (0, Some ErrSyntax)
  | String c s' =>
      let neg := Ascii.eqb c "-"%char in
      let digits := if Ascii.eqb c "+"%char || neg then s' else s in
      match ParseUint digits 10 64 with
      | (_, Some ErrSyntax) => (0, Some ErrSyntax)
      | (un, _) =>
          let cutoff := 2 ^ 63 in
          if negb neg && (cutoff <=? un) then (cutoff - 1, Some ErrRange)
          else if neg && (cutoff <? un) then (- cutoff, Some ErrRange)
          else (if neg then wrap64 (- wrap64 un) else wrap64 un, None)
      end
  end.

(** The fast path of [strconv.Atoi]: [ch -= '0'] on a byte, then
    [n = n*10 + int(ch)]. *)
Fixpoint Atoi_loop (n : Z) (s : string) : option Z :=
  match s with
  | EmptyString => Some n
  | String c s' =>
      let ch := (byte_of c - 48) mod 256 in
      if 9 <? ch then None else Atoi_loop (wrap64 (n * 10 + ch)) s'
  end.

(** [strconv.Atoi] on a 64-bit platform. *)
Definition Atoi (s : string) : Z * option NumError :=
  let sLen := Z.of_nat (String.length s) in
  if (0 <? sLen) && (sLen <? 19) then
    match s with
    | EmptyString => (0, Some ErrSyntax)
    | String c s' =>
        let signed := Ascii.eqb c "-"%char || Ascii.eqb c "+"%char in
        let digits := if signed then s' else s in
        if signed && (Z.of_nat (String.length digits) <? 1) then (0, Some ErrSyntax)
        else
          match Atoi_loop 0 digits with
          | None => (0, Some ErrSyntax)
          | Some n => (if Ascii.eqb c "-"%char then wrap64 (- n) else n, None)
          end
    end
  else ParseInt10 s.

(** [strconv.FormatUint(n, 10)]: the decimal digits, no leading zero. *)
Definition FormatUint10 (n : Z) : string :=
  NilZero.string_of_uint (N.to_uint (Z.to_N n)).

(** ** strings *)

(** [strings.Index]: the byte offset of the first occurrence, or -1. *)
Definition Index (s substr : string) : Z :=
  match String.index 0 substr s with
  | Some i => Z.of_nat i
  | None => -1
  end.

(** The slices [s[:hi]] and [s[lo:]]. *)
Definition slice_to (s : string) (hi : Z) : string :=
  String.substring 0 (Z.to_nat hi) s.

Definition slice_from (s : string) (lo : Z) : string :=
  String.substring (Z.to_nat lo) (String.length s - Z.to_nat lo) s.

(** [strings.Split(s, sep)] for a non-empty separator: cut at every
    occurrence, left to right. *)
Fixpoint Split_from (fuel : nat) (s sep : string) : list string :=
  match fuel with
  | O => [s]
  | S fuel' =>
      match String.index 0 sep s with
      | None => [s]
      | Some i =>
          String.substring 0 i s
          :: Split_from fuel'
               (slice_from s (Z.of_nat (i + String.length sep))) sep
      end
  end.

Definition Split (s sep : string) : list string :=
  Split_from (String.length s) s sep.

Fixpoint Join (elems : list string) (sep : string) : string :=
  match elems with
  | [] => EmptyString
  | [e] => e
  | e :: rest => e +:+ sep +:+ Join rest sep
  end.

(** [strings.ReplaceAll(s, old, new)] for a non-empty [old]. *)
Definition ReplaceAll (s old new : string) : string :=
  Join (Split s old) new.

(** ** main.go *)

(** [os.Getenv]: the value of the first entry [key=value], or the empty
    string. *)
Fixpoint Getenv (environ : list string) (key : string) : string :=
  match environ with
  | [] => EmptyString
  | e :: rest =>
      match String.index 0 "=" e with
      | Some j =>
          if String.eqb (String.substring 0 j e) key
          then slice_from e (Z.of_nat (j + 1))
          else Getenv rest key
      | None => Getenv rest key
      end
  end.

Definition IsDevelopment (g : World) : bool :=
  let envVar := Getenv (environ g) "DEVELOPMENT" in
  if negb (String.eqb envVar EmptyString) then
    let '(isDevelopment, err) := Atoi envVar in
    match err with
    | None => isDevelopment =? 1
    | Some _ => false
    end
  else false.

Definition httpHeader : string := "X-Cloud-Trace-Context".

(** What [fixTracingHeader] does to the request before it calls the wrapped
    handler. *)
Definition fixTracingHeader_request (r : Request) : Request :=
  let h := Header_Get (ReqHeader r) httpHeader in
  if String.eqb h EmptyString then r
  else
    let slash := Index h "/" in
    if slash =? -1 then r
    else
      let tracestr := slice_to h slash in
      let h := slice_from h (slash + 1) in
      let semicolon := Index h ";" in
      if semicolon =? -1 then r
      else
        let spanstr := slice_to h semicolon in
        let h := slice_from h (semicolon + 1) in
        let spanstr :=
          match ParseUint spanstr 10 64 with
          | (_, None) => spanstr
          | (_, Some _) =>
              match ParseUint spanstr 16 64 with
              | (n, None) => FormatUint10 (uint64 (uint32 n))
              | (_, Some _) => spanstr
              end
          end in
        let convertedHeader := tracestr +:+ "/" +:+ spanstr +:+ ";" +:+ h in
        WithHeader r (Header_Set (ReqHeader r) httpHeader convertedHeader).

Definition fixTracingHeader (h : Handler) : Handler :=
  fun W RW w r g => h W RW w (fixTracingHeader_request r) g.

(** ** handlers.go *)

(** Values handed to [encoding/json]. *)
#[warnings="-register-all"]
Inductive json :=
| JString (s : string)
| JTime (t : Z)
| JArray (l : list json)
| JObject (m : gmap string json).

(** [encoding/json] itself is outside the program: any decoder and encoder
    will do. *)
Class Codec := {
  json_Unmarshal : bytes -> error + json;
  json_Marshal : json -> bytes
}.

Definition json_of_strings (m : gmap string string) : json :=
  JObject (JString <$> m).

Definition json_of_values (m : gmap string (list string)) : json :=
  JObject ((fun l => JArray (JString <$> l)) <$> m).

(** A value, or the message of the panic that interrupted its computation. *)
Inductive res (A : Type) :=
| Ok (a : A)
| Panicked (msg : string).
Arguments Ok {A}.
Arguments Panicked {A}.

Definition indexOutOfRange : string := "runtime error: index out of range".

Definition quote : string := String (ascii_of_nat 34) EmptyString.

Record service := { name : string }.

Definition newService (name : string) : service := {| name := name |}.

(** [func (h *healthService) healthCheck()] *)
Definition healthCheck : Handler :=
  fun W RW w r g => (Done, rw_WriteHeader StatusOK w, g).

(** The scanner loop of [getServiceLabels]; the map is the global, so what a
    panic leaves behind stays in it. *)
Fixpoint scanLabels (lines : list string) (labels : gmap string string)
  : gmap string string * outcome :=
  match lines with
  | [] => (labels, Done)
  | text :: rest =>
      match Split text "=" with
      | p0 :: p1 :: _ =>
          scanLabels rest (<[p0 := ReplaceAll p1 quote EmptyString]> labels)
      | _ => (labels, Panic indexOutOfRange)
      end
  end.

Definition labelsFilename (g : World) : string :=
  if IsDevelopment g then "/tmp/podinfo/labels" else "/etc/podinfo/labels".

Definition getServiceLabels (g : World) : res (gmap string string) * World :=
  match podLabels g with
  | Some labels => (Ok labels, g)
  | None =>
      let filename := labelsFilename g in
      match files g filename with
      | inl (Err e) =>
          let labels : gmap string string :=
            {[ "error" := "ERROR: Error opening file " +:+ filename +:+ ": " +:+ e ]} in
          (Ok labels, set_podLabels g (Some labels))
      | inr (lines, scanErr) =>
          match scanLabels lines ∅ with
          | (labels, Panic msg) => (Panicked msg, set_podLabels g (Some labels))
          | (labels, Done) =>
              let labels :=
                match scanErr with
                | Some (Err e) =>
                    <["error" := "ERROR: Error reading file: " +:+ e]> labels
                | None => labels
                end in
              (Ok labels, set_podLabels g (Some labels))
          end
      end
  end.

Definition filterEnvVariables : list string :=
  ["DEVELOPMENT"; "ENVIRONMENT"; "POD_NAME"; "POD_NAMESPACE"; "POD_UID"; "POD_IP";
   "POD_SERVICE_ACCOUNT"; "NODE_NAME"; "HOST_IP"].

Fixpoint scanEnviron (doFiltering : bool) (lookupMap : gmap string bool)
  (es : list string) (vars : gmap string string)
  : gmap string string * outcome :=
  match es with
  | [] => (vars, Done)
  | e :: rest =>
      match Split e "=" with
      | [] => (vars, Panic indexOutOfRange)
      | p0 :: tl =>
          let found := bool_decide (is_Some (lookupMap !! p0)) in
          if negb doFiltering || found then
            match tl with
            | p1 :: _ => scanEnviron doFiltering lookupMap rest (<[p0 := p1]> vars)
            | [] => (vars, Panic indexOutOfRange)
            end
          else scanEnviron doFiltering lookupMap rest vars
      end
  end.

Definition getEnvironmentVariables (g : World) : res (gmap string string) * World :=
  match environmentVariables g with
  | Some vars => (Ok vars, g)
  | None =>
      let doFiltering := false in
      let lookupMap : gmap string bool :=
        foldl (fun m key => <[key := true]> m) ∅ filterEnvVariables in
      match scanEnviron doFiltering lookupMap (environ g) ∅ with
      | (vars, Panic msg) => (Panicked msg, set_environmentVariables g (Some vars))
      | (vars, Done) => (Ok vars, set_environmentVariables g (Some vars))
      end
  end.

(** The map literal evaluates its values in order: the clock, then the
    environment, then the labels. *)
Definition getServiceInfo (s : service) (g : World) : res json * World :=
  let now := clock g in
  match getEnvironmentVariables g with
  | (Panicked msg, g) => (Panicked msg, g)
  | (Ok vars, g) =>
      match getServiceLabels g with
      | (Panicked msg, g) => (Panicked msg, g)
      | (Ok labels, g) =>
          (Ok (JObject
                 (<["name" := JString (name s)]>
                  (<["currentTimestamp" := JTime now]>
                   (<["environment" := json_of_strings vars]>
                    (<["labels" := json_of_strings labels]> ∅))))), g)
      end
  end.

Definition getRequestInfo (r : Request) : json :=
  JObject
    (<["headers" := json_of_values (ReqHeader r)]>
     (<["method" := JString (Method r)]>
      (<["params" := json_of_values (Query r)]>
       (<["remoteAddr" := JString (RemoteAddr r)]>
        (<["userAgent" := JString (Header_Get (ReqHeader r) "User-Agent")]>
         (<["url" := JString (URL r)]>
          (<["host" := JString (Host r)]>
           (<["referrer" := JString (Header_Get (ReqHeader r) "Referer")]>
            (<["protocol" := JString (Proto r)]> ∅))))))))).

Definition getJSONResponse `{Codec} (r : Request) (g : World) : gmap string json :=
  let called : gmap string json := ∅ in
  match Query r !! "url" with
  | Some [u] =>
      if Z.of_nat (String.length u) <? 1 then
        <["error" := JString "ERROR: Invalid url param provided for url to call"]> called
      else
        let called := <["url" := JString u]> called in
        match fetch g u with
        | inl (Err e) =>
            <["error" := JString ("ERROR: Error calling url " +:+ u +:+ ": " +:+ e)]> called
        | inr (inl (Err e)) =>
            <["error" := JString ("ERROR: Error reading response body: " +:+ e)]> called
        | inr (inr body) =>
            match json_Unmarshal body with
            | inl (Err e) =>
                <["response_raw" := JString (String.string_of_list_byte body)]>
                  (<["error" := JString ("ERROR: Error json decoding response body: " +:+ e)]>
                     called)
            | inr target => <["response" := target]> called
            end
        end
  | _ =>
      <["error" := JString "ERROR: Invalid url param provided for url to call"]> called
  end.

(** [json.NewEncoder(w).Encode(v)]: one [Write] of the encoding and a
    newline; its result is dropped. *)
Definition Encode `{Codec} {W} `{ResponseWriter W} (v : json) (w : W) : W :=
  fst (rw_Write (json_Marshal v ++ [Byte.x0a])%list w).

Definition indexHandler `{Codec} (s : service) : Handler :=
  fun W RW w r g =>
    let w := rw_HeaderSet "Content-Type" "application/json" w in
    let w := rw_WriteHeader StatusOK w in
    let response : gmap string json := ∅ in
    match getServiceInfo s g with
    | (Panicked msg, g) => (Panic msg, w, g)
    | (Ok info, g) =>
        let response := <["service" := info]> response in
        let response := <["request" := getRequestInfo r]> response in
        (Done, Encode (JObject response) w, g)
    end.

Definition callHandler `{Codec} (s : service) : Handler :=
  fun W RW w r g =>
    let w := rw_HeaderSet "Content-Type" "application/json" w in
    let w := rw_WriteHeader StatusOK w in
    let response : gmap string json := ∅ in
    match getServiceInfo s g with
    | (Panicked msg, g) => (Panic msg, w, g)
    | (Ok info, g) =>
        let response := <["service" := info]> response in
        let response := <["request" := getRequestInfo r]> response in
        let response := <["called" := JObject (getJSONResponse r g)]> response in
        (Done, Encode (JObject response) w, g)
    end.

(** [http.NotFound], what the router answers on any other path. *)
Definition NotFound : Handler :=
  fun W RW w r g =>
    let w := rw_HeaderSet "Content-Type" "text/plain; charset=utf-8" w in
    let w := rw_HeaderSet "X-Content-Type-Options" "nosniff" w in
    let w := rw_WriteHeader 404 w in
    (Done,
     fst (rw_Write (String.list_byte_of_string "404 page not found" ++ [Byte.x0a])%list w),
     g).

(** [getRouter]: the four routes, matched on the exact path. *)
Definition getRouter `{Codec} : Handler :=
  fun W RW w r g =>
    let healthServerHandlers := healthCheck in
    let mainServerHandlers := newService "Inspector" in
    if String.eqb (Path r) "/_ah/health/" then
      adapt healthServerHandlers [addRequestTimeout; logHTTPRequest] W RW w r g
    else if String.eqb (Path r) "/_ah/ready/" then
      adapt healthServerHandlers [addRequestTimeout; logHTTPRequest] W RW w r g
    else if String.eqb (Path r) "/call/" then
      adapt (callHandler mainServerHandlers) [addRequestTimeout; logHTTPRequest] W RW w r g
    else if String.eqb (Path r) "/" then
      adapt (indexHandler mainServerHandlers) [addRequestTimeout; logHTTPRequest] W RW w r g
    else NotFound W RW w r g.

(** ** The shutdown coordinator of [main]

    Three goroutines matter once the servers are set up: [main] itself, the
    goroutine that waits for the signal, and the liveness server's goroutine.
    Each is a small program counter; one [step] runs one goroutine up to its
    next blocking point.  The scheduler, the operating system and the net/http
    library are the environment: it picks which goroutine runs, lets time
    pass, delivers the signal, and decides what a library call returns.
    Only the first signal is modelled. *)

Inductive server := Primary | Liveness.

Inductive event :=
| Received
| Logged (l : LogLine)
| Slept (d : Z)
| ShutdownCalled (srv : server) (timeout : Z)
| ShutdownReturned (srv : server) (err : option error)
| Closed
| Exited (code : Z).

(** Where [main] stands: about to call [srv.ListenAndServe], serving,
    waiting on [allConsClosed], then the deferred [shutdownLivenessServer]
    and [logger.Sync]. *)
Inductive mainpc :=
| MListen
| MServe
| MWait
| MLiveCall
| MLiveBlocked
| MLiveReturned (err : option error)
| MSync
| MDone.

(** Where the signal goroutine stands. *)
Inductive sigpc :=
| GWait
| GSleep (wake : Z)
| GShutdown
| GBlocked
| GReturned (err : option error)
| GDone.

(** Where the goroutine of [startLivenessServer] stands. *)
Inductive livepc :=
| LListen
| LServe
| LDone.

Record proc := {
  mainAt : mainpc;
  sigAt : sigpc;
  liveAt : livepc;
  now : Z;
  sigint : bool;
  primaryShuttingDown : bool;
  livenessShuttingDown : bool;
  allConsClosed : bool;
  exited : option Z;
  events : list (Z * event)
}.

Definition second : Z := 1000000000.

Definition started (t0 : Z) : proc :=
  {| mainAt := MListen; sigAt := GWait; liveAt := LListen; now := t0;
     sigint := false; primaryShuttingDown := false;
     livenessShuttingDown := false; allConsClosed := false;
     exited := None; events := [] |}.

Definition record (e : event) (p : proc) : proc :=
  {| mainAt := mainAt p; sigAt := sigAt p; liveAt := liveAt p; now := now p;
     sigint := sigint p; primaryShuttingDown := primaryShuttingDown p;
     livenessShuttingDown := livenessShuttingDown p;
     allConsClosed := allConsClosed p; exited := exited p;
     events := events p ++ [(now p, e)] |}.

Definition at_main (pc : mainpc) (p : proc) : proc :=
  {| mainAt := pc; sigAt := sigAt p; liveAt := liveAt p; now := now p;
     sigint := sigint p; primaryShuttingDown := primaryShuttingDown p;
     livenessShuttingDown := livenessShuttingDown p;
     allConsClosed := allConsClosed p; exited := exited p;
     events := events p |}.

Definition at_sig (pc : sigpc) (p : proc) : proc :=
  {| mainAt := mainAt p; sigAt := pc; liveAt := liveAt p; now := now p;
     sigint := sigint p; primaryShuttingDown := primaryShuttingDown p;
     livenessShuttingDown := livenessShuttingDown p;
     allConsClosed := allConsClosed p; exited := exited p;
     events := events p |}.

Definition at_live (pc : livepc) (p : proc) : proc :=
  {| mainAt := mainAt p; sigAt := sigAt p; liveAt := pc; now := now p;
     sigint := sigint p; primaryShuttingDown := primaryShuttingDown p;
     livenessShuttingDown := livenessShuttingDown p;
     allConsClosed := allConsClosed p; exited := exited p;
     events := events p |}.

Definition advance (d : Z) (p : proc) : proc :=
  {| mainAt := mainAt p; sigAt := sigAt p; liveAt := liveAt p; now := now p + d;
     sigint := sigint p; primaryShuttingDown := primaryShuttingDown p;
     livenessShuttingDown := livenessShuttingDown p;
     allConsClosed := allConsClosed p; exited := exited p;
     events := events p |}.

Definition set_sigint (b : bool) (p : proc) : proc :=
  {| mainAt := mainAt p; sigAt := sigAt p; liveAt := liveAt p; now := now p;
     sigint := b; primaryShuttingDown := primaryShuttingDown p;
     livenessShuttingDown := livenessShuttingDown p;
     allConsClosed := allConsClosed p; exited := exited p;
     events := events p |}.

(** [srv.Shutdown] marks the server as shutting down as soon as it is
    called; [ListenAndServe] then returns [http.ErrServerClosed]. *)
Definition shutting_down (srv : server) (p : proc) : proc :=
  {| mainAt := mainAt p; sigAt := sigAt p; liveAt := liveAt p; now := now p;
     sigint := sigint p;
     primaryShuttingDown :=
       match srv with Primary => true | Liveness => primaryShuttingDown p end;
     livenessShuttingDown :=
       match srv with Liveness => true | Primary => livenessShuttingDown p end;
     allConsClosed := allConsClosed p; exited := exited p;
     events := events p |}.

Definition close_allConsClosed (p : proc) : proc :=
  {| mainAt := mainAt p; sigAt := sigAt p; liveAt := liveAt p; now := now p;
     sigint := sigint p; primaryShuttingDown := primaryShuttingDown p;
     livenessShuttingDown := livenessShuttingDown p;
     allConsClosed := true; exited := exited p;
     events := events p |}.

Definition exit (code : Z) (p : proc) : proc :=
  let p := record (Exited code) p in
  {| mainAt := mainAt p; sigAt := sigAt p; liveAt := liveAt p; now := now p;
     sigint := sigint p; primaryShuttingDown := primaryShuttingDown p;
     livenessShuttingDown := livenessShuttingDown p;
     allConsClosed := allConsClosed p; exited := Some code;
     events := events p |}.

(** [logger.Fatalf]: the line, then [os.Exit(1)]; no deferred call runs. *)
Definition logger_Fatalf (msg : string) (p : proc) : proc :=
  exit 1 (record (Logged (Fatalf msg)) p).

Definition error_text (e : error) : string :=
  match e with Err msg => msg end.

(** One step of [main]; [ret] is what the library call of this step, if it
    makes one, returns. *)
Definition step_main (ret : option error) (p : proc) : option proc :=
  match mainAt p with
  | MListen =>
      let p := record (Logged (Infof "server listening on")) p in
      if primaryShuttingDown p then Some (at_main MWait p)
      else
        match ret with
        | None => Some (at_main MServe p)
        | Some e => Some (logger_Fatalf ("failed to start server: " +:+ error_text e) p)
        end
  | MServe =>
      if primaryShuttingDown p then Some (at_main MWait p) else None
  | MWait =>
      if allConsClosed p
      then Some (at_main MLiveCall
                   (record (Logged (Infof "server shut down cleanly")) p))
      else None
  | MLiveCall =>
      Some (at_main MLiveBlocked
              (shutting_down Liveness
                 (record (ShutdownCalled Liveness (5 * second))
                    (record (Logged (Debugf "liveness server shutting down...")) p))))
  | MLiveBlocked =>
      Some (at_main (MLiveReturned ret) (record (ShutdownReturned Liveness ret) p))
  | MLiveReturned err =>
      Some (at_main MSync
              (record (Logged
                         match err with
                         | Some e => Errorf ("failed to gracefully shutdown: " +:+ error_text e)
                         | None => Debugf "liveness server shut down cleanly"
                         end) p))
  | MSync => Some (at_main MDone (exit 0 p))
  | MDone => None
  end.

(** One step of the signal goroutine; [dev] is what [IsDevelopment()]
    answers. *)
Definition step_sig (dev : bool) (ret : option error) (p : proc) : option proc :=
  match sigAt p with
  | GWait =>
      if sigint p then
        let p := record (Logged (Debugf "received shutdown signal"))
                   (record Received (set_sigint false p)) in
        if negb dev then Some (at_sig (GSleep (now p + 10 * second)) p)
        else Some (at_sig GShutdown p)
      else None
  | GSleep wake =>
      if wake <=? now p
      then Some (at_sig GShutdown (record (Slept (10 * second)) p))
      else None
  | GShutdown =>
      Some (at_sig GBlocked
              (shutting_down Primary
                 (record (ShutdownCalled Primary (20 * second))
                    (record (Logged (Debugf "server shutting down...")) p))))
  | GBlocked =>
      Some (at_sig (GReturned ret) (record (ShutdownReturned Primary ret) p))
  | GReturned err =>
      let p := match err with
               | Some e =>
                   record (Logged (Errorf ("failed to shut down gracefully: "
                                           +:+ error_text e))) p
               | None => p
               end in
      Some (at_sig GDone (close_allConsClosed (record Closed p)))
  | GDone => None
  end.

(** One step of the liveness server's goroutine. *)
Definition step_live (ret : option error) (p : proc) : option proc :=
  match liveAt p with
  | LListen =>
      let p := record (Logged (Debugf "liveness server listening on")) p in
      if livenessShuttingDown p then Some (at_live LDone p)
      else
        match ret with
        | None => Some (at_live LServe p)
        | Some e => Some (logger_Fatalf ("failed to start liveness server: " +:+ error_text e) p)
        end
  | LServe =>
      if livenessShuttingDown p then Some (at_live LDone p) else None
  | LDone => None
  end.

Inductive goroutine := Main | Sig | Live.

(** What the environment can do. *)
Inductive action :=
| Tick (d : Z)
| Signal
| Run (t : goroutine) (ret : option error).

Definition step (g : World) (a : action) (p : proc) : option proc :=
  match exited p with
  | Some _ => None
  | None =>
      match a with
      | Tick d => if 0 <=? d then Some (advance d p) else None
      | Signal =>
          match sigAt p with
          | GWait => if sigint p then None else Some (set_sigint true p)
          | _ => None
          end
      | Run Main ret => step_main ret p
      | Run Sig ret => step_sig (IsDevelopment g) ret p
      | Run Live ret => step_live ret p
      end
  end.

Fixpoint run (g : World) (acts : list action) (p : proc) : option proc :=
  match acts with
  | [] => Some p
  | a :: rest =>
      match step g a p with
      | Some p' => run g rest p'
      | None => None
      end
  end.

(** In a trace, every entry that satisfies [B] has an earlier entry related
    to it by [R]. *)
Definition each_preceded (R : Z * event -> Z * event -> Prop)
  (B : Z * event -> Prop) (tr : list (Z * event)) : Prop :=
  forall pre x post, tr = (pre ++ x :: post)%list -> B x ->
    exists y, In y pre /\ R y x.

Definition count_event (P : event -> bool) (tr : list (Z * event)) : nat :=
  length (filter (fun e => P e = true) (snd <$> tr)).

Definition is_call (srv : server) (e : event) : bool :=
  match e, srv with
  | ShutdownCalled Primary _, Primary => true
  | ShutdownCalled Liveness _, Liveness => true
  | _, _ => false
  end.

(** ** Sample inputs *)

Definition sample_request : Request :=
  {| Method := "GET"; URL := "/"; Path := "/"; Query := ∅; Proto := "HTTP/1.1";
     RemoteAddr := "127.0.0.1:4000"; Host := "localhost"; ReqHeader := ∅;
     ctx := {| deadline := None |} |}.

Definition sample_world : World :=
  {| clock := 0; logged := []; timers := 0; podLabels := None;
     environmentVariables := None; environ := [];
     files := fun _ => inl (Err "no such file or directory");
     fetch := fun _ => inl (Err "connection refused") |}.

(** A handler that writes 404 and then 500, and one that writes nothing. *)
Definition writes_404_then_500 : Request -> script :=
  fun _ => CallWriteHeader 404 (CallWriteHeader 500 Return).

Definition writes_nothing : Request -> script := fun _ => Return.

(** The access line [logHTTPRequest] logs for a scripted handler. *)
Definition access_line_of {W} `{ResponseWriter W}
  (s : Request -> script) (w : W) (r : Request) (g : World) : option AccessLine :=
  last_access (snd (logHTTPRequest (scripted s) W _ w r g)).

(** C3 as the specification words it: the logged status is the first status
    the handler wrote explicitly. *)
Definition logs_first_explicit_status {W} `{ResponseWriter W}
  (s : Request -> script) (w : W) (r : Request) (g : World) : Prop :=
  forall c, head (explicit_statuses (calls (s r) w)) = Some c ->
    exists l, access_line_of s w r g = Some l /\ al_status l = c.

(** C4 as the specification words it: without an explicit status the line
    says 200, and the byte count is the sum of what the writes returned. *)
Definition logs_default_status_and_length {W} `{ResponseWriter W}
  (s : Request -> script) (w : W) (r : Request) (g : World) : Prop :=
  exists l, access_line_of s w r g = Some l
    /\ (explicit_statuses (calls (s r) w) = [] -> al_status l = StatusOK)
    /\ al_length l = bytes_written (calls (s r) w).

(** ** Reading strings in the specification's terms *)

(** Does the byte occur in the string? *)
Fixpoint has_byte (c : ascii) (s : string) : bool :=
  match s with
  | EmptyString => false
  | String b s' => Ascii.eqb c b || has_byte c s'
  end.

(** The number a string of digits denotes in a base, read from an
    accumulator; no bound on the result. *)
Fixpoint digits_value (base acc : Z) (s : string) : option Z :=
  match s with
  | EmptyString => Some acc
  | String c s' =>
      match digit_of c with
      | Some d => if d <? base then digits_value base (acc * base + d) s' else None
      | None => None
      end
  end.

(** The natural number a non-empty string of digits denotes. *)
Definition numeral (base : Z) (s : string) : option Z :=
  match s with
  | EmptyString => None
  | _ => digits_value base 0 s
  end.

(** The integer a decimal literal with an optional sign denotes. *)
Definition integer_literal (s : string) : option Z :=
  match s with
  | EmptyString => None
  | String c s' =>
      if Ascii.eqb c "-"%char then Z.opp <$> numeral 10 s'
      else if Ascii.eqb c "+"%char then numeral 10 s'
      else numeral 10 s
  end.

Definition slash : string := "/".
Definition semicolon : string := ";".

(** A request that carries one value of the trace header. *)
Definition request_with_trace (value : string) : Request :=
  WithHeader sample_request (Header_Set ∅ httpHeader value).

Definition trace_header (r : Request) : string :=
  Header_Get (ReqHeader r) httpHeader.

Definition world_with_environ (es : list string) : World :=
  {| clock := 0; logged := []; timers := 0; podLabels := None;
     environmentVariables := None; environ := es;
     files := fun _ => inl (Err "no such file or directory");
     fetch := fun _ => inl (Err "connection refused") |}.

(** C7 as the specification words it: any nonzero integer enables
    development mode. *)
Definition nonzero_enables_development (g : World) : Prop :=
  forall n, integer_literal (Getenv (environ g) "DEVELOPMENT") = Some n ->
    n <> 0 -> IsDevelopment g = true.

(** ** Loading the caches, in the specification's terms *)

Definition has_equals (s : string) : Prop := has_byte "=" s = true.

(** The environment listing can be cached without a panic. *)
Definition environ_loads (g : World) : Prop :=
  is_Some (environmentVariables g) \/ Forall has_equals (environ g).

(** The label file can be cached without a panic. *)
Definition labels_load (g : World) : Prop :=
  is_Some (podLabels g)
  \/ match files g (labelsFilename g) with
     | inl _ => True
     | inr (lines, _) => Forall has_equals lines
     end.

(** The documented paths of the primary listener. *)
Definition documented (path : string) : Prop :=
  path = "/" \/ path = "/call/" \/ path = "/_ah/health/" \/ path = "/_ah/ready/".

(** The error message of an unusable [url] parameter. *)
Definition invalidUrlParam : string :=
  "ERROR: Invalid url param provided for url to call".


(** A codec that decodes nothing and encodes everything to the empty
    sequence, for running the handlers on sample inputs. *)
Definition silent_codec : Codec :=
  {| json_Unmarshal := fun _ => inl (Err "invalid character");
     json_Marshal := fun _ => [] |}.


(** A world whose label file, at the production path, holds the given
    lines; nothing is cached yet. *)
Definition world_with_labels (lines : list string) : World :=
  {| clock := 0; logged := []; timers := 0; podLabels := None;
     environmentVariables := None; environ := ["ENVIRONMENT=local"];
     files := fun _ => inr (lines, None);
     fetch := fun _ => inl (Err "connection refused") |}.

Definition line_without_equals (text : string) : Prop := has_byte "=" text = false.


(** *** Reading a trace *)

(** The events that make up the shutdown sequence: everything but the
    informational log lines and the fatal exit of a failed start. *)
Definition is_stage (e : event) : bool :=
  match e with
  | Logged (Errorf _) => true
  | Logged _ => false
  | Exited code => code =? 0
  | _ => true
  end.

Definition stage_events (tr : list (Z * event)) : list event :=
  filter (fun e => is_stage e = true) (snd <$> tr).

Definition shutdown_error_line (srv : server) (err : option error) : list event :=
  match err with
  | None => []
  | Some e =>
      [Logged (Errorf ((match srv with
                        | Primary => "failed to shut down gracefully: "
                        | Liveness => "failed to gracefully shutdown: "
                        end) +:+ error_text e))]
  end.

(** The one order in which the stages can occur when the first call returns
    [e1] and the second [e2]. *)
Definition shutdown_stages (dev : bool) (e1 e2 : option error) : list event :=
  [Received] ++ (if dev then [] else [Slept (10 * second)])
  ++ [ShutdownCalled Primary (20 * second); ShutdownReturned Primary e1]
  ++ shutdown_error_line Primary e1
  ++ [Closed; ShutdownCalled Liveness (5 * second); ShutdownReturned Liveness e2]
  ++ shutdown_error_line Liveness e2
  ++ [Exited 0].

(** The stages the signal goroutine has behind it. *)
Definition sig_stages (dev : bool) (pc : sigpc) (e1 : option error) : list event :=
  let pre := [Received] ++ (if dev then [] else [Slept (10 * second)]) in
  match pc with
  | GWait => []
  | GSleep _ => [Received]
  | GShutdown => pre
  | GBlocked => pre ++ [ShutdownCalled Primary (20 * second)]
  | GReturned e =>
      pre ++ [ShutdownCalled Primary (20 * second); ShutdownReturned Primary e]
  | GDone =>
      pre ++ [ShutdownCalled Primary (20 * second); ShutdownReturned Primary e1]
      ++ shutdown_error_line Primary e1 ++ [Closed]
  end.

(** The stages [main] has behind it. *)
Definition main_stages (pc : mainpc) (e2 : option error) : list event :=
  match pc with
  | MListen | MServe | MWait | MLiveCall => []
  | MLiveBlocked => [ShutdownCalled Liveness (5 * second)]
  | MLiveReturned e =>
      [ShutdownCalled Liveness (5 * second); ShutdownReturned Liveness e]
  | MSync =>
      [ShutdownCalled Liveness (5 * second); ShutdownReturned Liveness e2]
      ++ shutdown_error_line Liveness e2
  | MDone =>
      [ShutdownCalled Liveness (5 * second); ShutdownReturned Liveness e2]
      ++ shutdown_error_line Liveness e2 ++ [Exited 0]
  end.

(** The time of the first event that satisfies [P]. *)
Fixpoint first_time (P : event -> bool) (tr : list (Z * event)) : option Z :=
  match tr with
  | [] => None
  | (t, e) :: rest => if P e then Some t else first_time P rest
  end.

Definition is_received (e : event) : bool :=
  match e with Received => true | _ => false end.

Definition is_fatal (e : event) : bool :=
  match e with Logged (Fatalf _) => true | _ => false end.

Definition main_past_wait (pc : mainpc) : bool :=
  match pc with
  | MListen | MServe | MWait => false
  | _ => true
  end.

Definition sig_called (pc : sigpc) : bool :=
  match pc with
  | GWait | GSleep _ | GShutdown => false
  | _ => true
  end.

Definition main_called (pc : mainpc) : bool :=
  match pc with
  | MListen | MServe | MWait | MLiveCall => false
  | _ => true
  end.

(** What holds of every state the process can be in. *)
Record coherent (dev : bool) (p : proc) : Prop := {
  co_stages :
    exists e1 e2,
      stage_events (events p)
      = (sig_stages dev (sigAt p) e1 ++ main_stages (mainAt p) e2)%list;
  co_closed : allConsClosed p = match sigAt p with GDone => true | _ => false end;
  co_primary : primaryShuttingDown p = sig_called (sigAt p);
  co_liveness : livenessShuttingDown p = main_called (mainAt p);
  co_main : main_past_wait (mainAt p) = true -> sigAt p = GDone;
  co_sigint : sigint p = true -> sigAt p = GWait;
  co_exit :
    match exited p with
    | None => mainAt p <> MDone /\ first_time is_fatal (events p) = None
    | Some code =>
        (code = 0 /\ mainAt p = MDone /\ first_time is_fatal (events p) = None)
        \/ (code = 1 /\ first_time is_fatal (events p) <> None)
    end;
  co_times :
    match sigAt p with
    | GWait =>
        first_time is_received (events p) = None
        /\ first_time (is_call Primary) (events p) = None
    | GSleep wake =>
        dev = false
        /\ first_time (is_call Primary) (events p) = None
        /\ exists t0, first_time is_received (events p) = Some t0
                      /\ wake = t0 + 10 * second
    | GShutdown =>
        first_time (is_call Primary) (events p) = None
        /\ exists t0, first_time is_received (events p) = Some t0
                      /\ (dev = false -> t0 + 10 * second <= now p)
    | _ =>
        exists t0 t1,
          first_time is_received (events p) = Some t0
          /\ first_time (is_call Primary) (events p) = Some t1
          /\ (dev = false -> t0 + 10 * second <= t1)
    end
}.

(** *** Finishing a shutdown

    A schedule that takes the process from where it stands to the exit of
    [main], with [e1] and [e2] as the results of the shutdown calls that have
    not returned yet. *)
Definition finish_sig (dev : bool) (e1 : option error) (p : proc) : list action :=
  match sigAt p with
  | GWait =>
      [Run Sig None]
      ++ (if dev then [] else [Tick (10 * second); Run Sig None])
      ++ [Run Sig None; Run Sig e1; Run Sig None]
  | GSleep wake =>
      [Tick (Z.max 0 (wake - now p)); Run Sig None; Run Sig None; Run Sig e1; Run Sig None]
  | GShutdown => [Run Sig None; Run Sig e1; Run Sig None]
  | GBlocked => [Run Sig e1; Run Sig None]
  | GReturned _ => [Run Sig None]
  | GDone => []
  end.

Definition finish_main (e2 : option error) (p : proc) : list action :=
  match mainAt p with
  | MListen | MServe =>
      [Run Main None; Run Main None; Run Main None; Run Main e2; Run Main None; Run Main None]
  | MWait => [Run Main None; Run Main None; Run Main e2; Run Main None; Run Main None]
  | MLiveCall => [Run Main None; Run Main e2; Run Main None; Run Main None]
  | MLiveBlocked => [Run Main e2; Run Main None; Run Main None]
  | MLiveReturned _ => [Run Main None; Run Main None]
  | MSync => [Run Main None]
  | MDone => []
  end.

Definition finish (dev : bool) (e1 e2 : option error) (p : proc) : list action :=
  (finish_sig dev e1 p ++ finish_main e2 p)%list.

(** A run in which the signal arrives after both listeners are up, the first
    shutdown call times out and the second succeeds. *)
Definition sample_run : list action :=
  [Run Live None; Run Main None; Tick (3 * second); Signal; Run Sig None;
   Tick (10 * second); Run Sig None; Run Sig None; Run Main None;
   Tick (20 * second); Run Sig (Some (Err "context deadline exceeded"));
   Run Sig None; Run Main None; Run Main None; Run Live None; Run Main None;
   Run Main None; Run Main None].

(** The state [sample_run] ends in. *)
Definition sample_final : proc :=
  Eval vm_compute in
    match run sample_world sample_run (started 0) with
    | Some p => p
    | None => started 0
    end.


(** The schedule takes the signal goroutine to its end without touching
    [main]. *)
Definition sig_runs (g : World) (acts : list action) (p : proc) : Prop :=
  exists p1, run g acts p = Some p1
             /\ exited p1 = None /\ sigAt p1 = GDone /\ mainAt p1 = mainAt p.

(** The schedule takes the process to the return of [main]. *)
Definition main_runs (g : World) (acts : list action) (p : proc) : Prop :=
  exists p', run g acts p = Some p' /\ exited p' = Some 0.


(** The line [logger.Errorf] writes for a failed shutdown call. *)
Definition shutdown_error_logged (srv : server) (e : error) : event :=
  Logged (Errorf ((match srv with
                   | Primary => "failed to shut down gracefully: "
                   | Liveness => "failed to gracefully shutdown: "
                   end) +:+ error_text e)).

Definition occurs (e : event) (tr : list (Z * event)) : Prop :=
  exists t, In (t, e) tr.


(** The handler [main] gives the primary server:
    [tracingWrapper(getRouter())].  The OpenCensus handler between
    [fixTracingHeader] and the router starts a span and hands the request on
    unchanged; it is left out. *)
Definition primaryHandler `{Codec} : Handler := fixTracingHeader getRouter.


(** How many steps the goroutines have left at most. *)
Definition sig_left (pc : sigpc) : nat :=
  match pc with
  | GWait => 5 | GSleep _ => 4 | GShutdown => 3 | GBlocked => 2
  | GReturned _ => 1 | GDone => 0
  end.

Definition main_left (pc : mainpc) : nat :=
  match pc with
  | MListen => 7 | MServe => 6 | MWait => 5 | MLiveCall => 4 | MLiveBlocked => 3
  | MLiveReturned _ => 2 | MSync => 1 | MDone => 0
  end.

Definition live_left (pc : livepc) : nat :=
  match pc with LListen => 2 | LServe => 1 | LDone => 0 end.

Definition remaining (p : proc) : nat :=
  match exited p with
  | Some _ => 0
  | None => sig_left (sigAt p) + main_left (mainAt p) + live_left (liveAt p)
  end.


(** ** Further sample handlers *)

Definition set_clock (g : World) (t : Z) : World :=
  {| clock := t; logged := logged g; timers := timers g;
     podLabels := podLabels g; environmentVariables := environmentVariables g;
     environ := environ g; files := files g; fetch := fetch g |}.

(** A handler that takes [d] nanoseconds and writes nothing. *)
Definition dawdle (d : Z) : Handler :=
  fun W RW w r g => (Done, w, set_clock g (clock g + d)).

(** A handler that writes two bytes and then one, without a status. *)
Definition writes_three_bytes : Request -> script :=
  fun _ => CallWrite [Byte.x68; Byte.x69]
             (fun _ _ => CallWrite [Byte.x21] (fun _ _ => Return)).


(** ** Splitting and deleting, read byte by byte *)

(** The pieces of a string between the occurrences of a byte. *)
Fixpoint fields (c : ascii) (s : string) : list string :=
  match s with
  | EmptyString => [EmptyString]
  | String b s' =>
      if Ascii.eqb c b then EmptyString :: fields c s'
      else
        match fields c s' with
        | x :: xs => String b x :: xs
        | [] => [String b EmptyString]
        end
  end.

(** The string without the occurrences of a byte. *)
Fixpoint delete_byte (c : ascii) (s : string) : string :=
  match s with
  | EmptyString => EmptyString
  | String b s' =>
      if Ascii.eqb c b then delete_byte c s' else String b (delete_byte c s')
  end.

(** The end of a line after its first value: nothing, or a further '='. *)
Definition value_ends (tail : string) : Prop :=
  tail = EmptyString \/ exists w, tail = String "="%char w.

Definition quote_byte : ascii := ascii_of_nat 34.


(** A world in which neither cache can be filled without a panic. *)
Definition broken_world : World :=
  {| clock := 0; logged := []; timers := 0; podLabels := None;
     environmentVariables := None; environ := ["PATH"];
     files := fun _ => inr (["app"], None);
     fetch := fun _ => inl (Err "connection refused") |}.


(** A plain GET request for a path. *)
Definition request_at (path : string) : Request :=
  {| Method := "GET"; URL := path; Path := path; Query := ∅; Proto := "HTTP/1.1";
     RemoteAddr := "127.0.0.1:4000"; Host := "localhost"; ReqHeader := ∅;
     ctx := {| deadline := None |} |}.


(** The process before any signal: both servers are up or coming up, nothing
    of the shutdown sequence has happened. *)
Record serving (p : proc) : Prop := {
  sv_sigint : sigint p = false;
  sv_sig : sigAt p = GWait;
  sv_primary : primaryShuttingDown p = false;
  sv_liveness : livenessShuttingDown p = false;
  sv_closed : allConsClosed p = false;
  sv_main : mainAt p = MListen \/ mainAt p = MServe;
  sv_exit : exited p <> Some 0;
  sv_stages : stage_events (events p) = []
}.

(** A schedule without a signal: an hour of serving. *)
Definition quiet_run : list action :=
  [Run Main None; Tick (1800 * second); Run Live None; Tick (1800 * second)].

Definition quiet_final : proc :=
  Eval vm_compute in
    match run sample_world quiet_run (started 0) with
    | Some p => p
    | None => started 0
    end.


(** ** Handlers as programs over the writer and the world

    A handler whose use of the writer goes through the three methods of
    [http.ResponseWriter] ([Header().Set], [WriteHeader], [Write]) is a
    program of such calls, of reads and updates of the world between them,
    and of a final return or panic; each step may depend on the request, on
    what the world held and on what the earlier [Write]s returned. *)
Inductive program :=
| Finish (o : outcome)
| DoHeaderSet (key value : string) (k : program)
| DoWriteHeader (status : Z) (k : program)
| DoWrite (b : bytes) (k : Z -> option error -> program)
| DoWorld (f : World -> World) (k : World -> program).

Fixpoint exec {W} `{ResponseWriter W} (p : program) (w : W) (g : World)
  : outcome * W * World :=
  match p with
  | Finish o => (o, w, g)
  | DoHeaderSet key value k => exec k (rw_HeaderSet key value w) g
  | DoWriteHeader status k => exec k (rw_WriteHeader status w) g
  | DoWrite b k =>
      let '(w', (n, err)) := rw_Write b w in exec (k n err) w' g
  | DoWorld f k => exec (k g) w (f g)
  end.

Definition programmed (p : Request -> program) : Handler :=
  fun W RW w r g => exec (p r) w g.

(** * Properties *)

(** ** Machine integers *)

Lemma wrap64_small z : - 2 ^ 63 <= z < 2 ^ 63 -> wrap64 z = z.
Proof.
  intros Hz. unfold wrap64.
  rewrite Z.mod_small; lia.
Qed.

(** ** The logger's output *)

Lemma emits_nil g : emits [] g = g.
Proof.
  destruct g. unfold emits, set_logged. simpl. by rewrite app_nil_r.
Qed.

Lemma emits_emit ls l g : emits ls (emit l g) = emits (l :: ls) g.
Proof.
  unfold emits, emit, set_logged. simpl. by rewrite <- app_assoc.
Qed.

Lemma emit_emits ls l g : emit l (emits ls g) = emits (ls ++ [l]) g.
Proof.
  unfold emits, emit, set_logged. simpl. by rewrite <- app_assoc.
Qed.

(** ** The middleware adapter *)

Lemma adapt_snoc h ms m : adapt h (ms ++ [m]) = m (adapt h ms).
Proof.
  revert h. induction ms as [|m' ms IH]; intros h; simpl; [done|].
  apply IH.
Qed.

Lemma adapt_fold_left h ms : adapt h ms = fold_left (fun h' m => m h') ms h.
Proof.
  revert h. induction ms as [|m ms IH]; intros h; simpl; [done|].
  apply IH.
Qed.

Lemma adapt_announce_order h names W RW w r g :
  adapt h (announce <$> names) W RW w r g =
  match h W RW w r (emits (enter_lines names) g) with
  | (Done, w', g') => (Done, w', emits (leave_lines names) g')
  | (Panic m, w', g') => (Panic m, w', g')
  end.
Proof.
  revert g. induction names as [|n names IH] using rev_ind; intros g.
  - simpl. unfold enter_lines, leave_lines. simpl. rewrite emits_nil.
    destruct (h W RW w r g) as [[[|m] w'] g']; [|done].
    by rewrite emits_nil.
  - rewrite fmap_app. simpl. rewrite adapt_snoc. unfold announce at 1.
    rewrite IH, emits_emit.
    unfold enter_lines, leave_lines. rewrite rev_app_distr. simpl.
    destruct (h W RW w r _) as [[[|m] w'] g']; [|done].
    by rewrite emit_emits, fmap_app.
Qed.

(** C1. [adapt] is the left fold [h := m_i(h)] over the adapters in the order
    they are listed, so the last adapter is the outermost wrapper; at call
    time the chain is entered from the last adapter down to the first, then
    the terminal handler runs, and it is left from the first up to the last.
    For the router's chain this makes [logHTTPRequest] the outermost
    wrapper. *)
Theorem adapt_last_adapter_outermost (h : Handler) (ms : list adapter) :
  adapt h ms = fold_left (fun h' m => m h') ms h
  /\ (forall m, adapt h (ms ++ [m]) = m (adapt h ms))
  /\ (forall names W RW w r g,
        adapt h (announce <$> names) W RW w r g =
        match h W RW w r (emits (enter_lines names) g) with
        | (Done, w', g') => (Done, w', emits (leave_lines names) g')
        | (Panic m, w', g') => (Panic m, w', g')
        end)
  /\ adapt h [addRequestTimeout; logHTTPRequest]
     = logHTTPRequest (addRequestTimeout h).
Proof.
  split; [apply adapt_fold_left|].
  split; [intros m; apply adapt_snoc|].
  split; [intros; apply adapt_announce_order|done].
Qed.

(** ** The response recorder and the access log *)

Section recorder.
Context {W : Type} `{RW : ResponseWriter W}.

(** The recorder forwards every call and returns what the wrapped writer
    returns, so the handler makes the same calls through it. *)
Lemma play_statusWriter (s : script) (w : W) (st len : Z) :
  play s (statusWriter.mk w st len) =
  statusWriter.mk (play s w) (status_after (calls s w) st)
                  (length_after (calls s w) len).
Proof.
  revert w st len. induction s as [|key value k IH|status k IH|b k IH];
    intros w st len; simpl.
  - done.
  - apply IH.
  - apply IH.
  - unfold statusWriter_Write. simpl.
    destruct (rw_Write b w) as [w' [n err]]. simpl. apply IH.
Qed.

Lemma logHTTPRequest_scripted (s : Request -> script) (w : W) r g :
  logHTTPRequest (scripted s) W RW w r g =
  (Done, play (s r) w,
   emit (Access {| al_remote := RemoteAddr r; al_time := clock g;
                   al_method := Method r; al_url := URL r; al_proto := Proto r;
                   al_status := status_after (calls (s r) w) 0;
                   al_length := length_after (calls (s r) w) 0;
                   al_millis := durationInMilliSeconds (clock g) (clock g) |}) g).
Proof.
  unfold logHTTPRequest, scripted. by rewrite play_statusWriter.
Qed.

End recorder.

Lemma last_access_emit l g : last_access (emit (Access l) g) = Some l.
Proof.
  unfold last_access, emit, set_logged. simpl. by rewrite last_snoc.
Qed.

Lemma status_after_app cs1 cs2 st :
  status_after (cs1 ++ cs2) st = status_after cs2 (status_after cs1 st).
Proof.
  revert st. induction cs1 as [|[| |] cs1 IH]; intros st; simpl; auto.
Qed.

Lemma status_after_no_explicit cs st :
  explicit_statuses cs = [] -> st <> 0 -> status_after cs st = st.
Proof.
  revert st. induction cs as [|[k v|c|b n e] cs IH]; intros st Hex Hst; simpl in *.
  - done.
  - by apply IH.
  - done.
  - destruct (Z.eqb_spec st 0) as [->|_]; [done|]. by apply IH.
Qed.

(** Splitting the calls at the last explicit status. *)
Lemma last_explicit_split cs c :
  last (explicit_statuses cs) = Some c ->
  exists cs1 cs2, cs = cs1 ++ WriteHeaderCall c :: cs2 /\ explicit_statuses cs2 = [].
Proof.
  induction cs as [|x cs IH]; simpl; [done|].
  destruct (explicit_statuses cs) as [|c' l] eqn:Hl.
  - destruct x as [k v|c0|b n e]; simpl; rewrite ?Hl; simpl; try done.
    intros [= ->]. by exists [], cs.
  - intros Hlast.
    assert (last (c' :: l) = Some c) as Hc.
    { destruct x; simpl in Hlast; rewrite ?Hl in Hlast; done. }
    destruct (IH Hc) as (cs1 & cs2 & -> & Hno).
    by exists (x :: cs1), cs2.
Qed.

Lemma status_after_last_explicit cs st c :
  last (explicit_statuses cs) = Some c -> c <> 0 -> status_after cs st = c.
Proof.
  intros Hlast Hc.
  destruct (last_explicit_split cs c Hlast) as (cs1 & cs2 & -> & Hno).
  rewrite status_after_app. simpl. by apply status_after_no_explicit.
Qed.

Lemma status_after_default cs :
  explicit_statuses cs = [] -> has_write cs = true -> status_after cs 0 = StatusOK.
Proof.
  induction cs as [|[k v|c|b n e] cs IH]; simpl; intros Hex Hw; try done.
  - by apply IH.
  - by apply status_after_no_explicit.
Qed.

Lemma length_after_sum cs len :
  0 <= len -> Forall (fun x => match x with WriteCall _ n _ => 0 <= n | _ => True end) cs ->
  len + bytes_written cs < 2 ^ 63 ->
  length_after cs len = len + bytes_written cs.
Proof.
  intros Hlen Hall. revert len Hlen.
  induction Hall as [|x cs Hx Hall IH]; intros len Hlen Hsum; simpl in *; [lia|].
  assert (0 <= bytes_written cs) as Hnn.
  { clear -Hall. induction Hall as [|[| |] ? ? ? IH']; simpl; lia. }
  destruct x as [k v|c|b n e]; simpl in *; try (apply IH; lia).
  rewrite wrap64_small by lia. rewrite IH; lia.
Qed.

Lemma access_line_of_scripted {W} `{ResponseWriter W}
  (s : Request -> script) (w : W) r g :
  exists l, access_line_of s w r g = Some l
    /\ al_status l = status_after (calls (s r) w) 0
    /\ al_length l = length_after (calls (s r) w) 0.
Proof.
  unfold access_line_of. rewrite logHTTPRequest_scripted. simpl.
  rewrite last_access_emit. eauto.
Qed.

(** What the recorder holds: the status code written explicitly most
    recently (when it is not zero).  [statusWriter.WriteHeader] assigns the
    status on every call, so a later explicit status replaces an earlier one;
    a [Write] never does. *)
Lemma logged_status_is_last_explicit {W} `{ResponseWriter W}
  (s : Request -> script) (w : W) (r : Request) (g : World) (c : Z) :
  last (explicit_statuses (calls (s r) w)) = Some c -> c <> 0 ->
  exists l, access_line_of s w r g = Some l /\ al_status l = c.
Proof.
  intros Hlast Hc.
  destruct (access_line_of_scripted s w r g) as (l & Hl & Hst & _).
  exists l. split; [done|].
  rewrite Hst. by apply status_after_last_explicit.
Qed.

(** C3 at the failing input.  A handler calls [WriteHeader(404)] and then
    [WriteHeader(500)].  The response the client is sent carries 404, the
    first status (net/http drops the second call as superfluous), and the
    access line says 500: the recorder has replaced the first status by the
    later one, so the line reports neither the first status written nor the
    status sent. *)
Theorem second_status_logged_first_status_sent (r : Request) (g : World) :
  explicit_statuses (calls (writes_404_then_500 r) response_empty) = [404; 500]
  /\ resp_status
       (snd (fst (logHTTPRequest (scripted writes_404_then_500) response _
                    response_empty r g)))
     = Some 404
  /\ (exists l, access_line_of writes_404_then_500 response_empty r g = Some l
        /\ al_status l = 500)
  /\ ~ logs_first_explicit_status writes_404_then_500 response_empty r g.
Proof.
  split; [done|]. split; [done|].
  destruct (access_line_of_scripted writes_404_then_500 response_empty r g)
    as (l & Hl & Hst & _).
  split.
  - exists l. by split.
  - intros Hclaim. destruct (Hclaim 404 eq_refl) as (l' & Hl' & Hst').
    rewrite Hl in Hl'. injection Hl' as <-. rewrite Hst in Hst'. discriminate Hst'.
Qed.

(** Where the recorder does what C4 says: once the handler has written
    something, a missing explicit status is logged as 200, and the byte count
    is the sum of the counts the writes returned (below 2^63). *)
Lemma logged_status_defaults_after_write {W} `{ResponseWriter W}
  (s : Request -> script) (w : W) r g :
  explicit_statuses (calls (s r) w) = [] -> has_write (calls (s r) w) = true ->
  exists l, access_line_of s w r g = Some l /\ al_status l = StatusOK.
Proof.
  intros Hex Hw.
  destruct (access_line_of_scripted s w r g) as (l & Hl & Hst & _).
  exists l. split; [done|]. rewrite Hst. by apply status_after_default.
Qed.

Lemma logged_length_is_bytes_written {W} `{ResponseWriter W}
  (s : Request -> script) (w : W) r g :
  Forall (fun x => match x with WriteCall _ n _ => 0 <= n | _ => True end)
         (calls (s r) w) ->
  bytes_written (calls (s r) w) < 2 ^ 63 ->
  exists l, access_line_of s w r g = Some l
    /\ al_length l = bytes_written (calls (s r) w).
Proof.
  intros Hall Hsum.
  destruct (access_line_of_scripted s w r g) as (l & Hl & _ & Hlen).
  exists l. split; [done|]. rewrite Hlen.
  rewrite length_after_sum; [lia|lia|done|lia].
Qed.

(** C4 at the failing input. A handler that returns without touching the
    writer never called [WriteHeader], net/http answers 200 for it, and the
    access line says status 0: the default is only applied inside [Write]. *)
Theorem silent_handler_logged_with_status_zero (r : Request) (g : World) :
  explicit_statuses (calls (writes_nothing r) response_empty) = []
  /\ (exists l, access_line_of writes_nothing response_empty r g = Some l
        /\ al_status l = 0 /\ al_length l = 0)
  /\ ~ logs_default_status_and_length writes_nothing response_empty r g.
Proof.
  split; [done|].
  destruct (access_line_of_scripted writes_nothing response_empty r g)
    as (l & Hl & Hst & Hlen).
  split.
  - exists l. by repeat split.
  - intros (l' & Hl' & Hdef & _). rewrite Hl in Hl'. injection Hl' as <-.
    specialize (Hdef eq_refl). rewrite Hst in Hdef. discriminate Hdef.
Qed.

(** ** Strings *)

Lemma append_cons b t u : String b t +:+ u = String b (t +:+ u).
Proof. reflexivity. Qed.

Lemma append_nil u : EmptyString +:+ u = u.
Proof. reflexivity. Qed.

Lemma substring_0_length s : String.substring 0 (String.length s) s = s.
Proof. induction s as [|c s IH]; simpl; [done|]. by rewrite IH. Qed.

Lemma substring_0_app t u : String.substring 0 (String.length t) (t +:+ u) = t.
Proof. induction t as [|c t IH]; simpl; [by destruct u|]. by rewrite IH. Qed.

Lemma substring_skip_app t u n :
  String.substring (String.length t) n (t +:+ u) = String.substring 0 n u.
Proof. induction t as [|c t IH]; simpl; [done|]. apply IH. Qed.

Lemma length_append t u :
  String.length (t +:+ u) = (String.length t + String.length u)%nat.
Proof. induction t as [|c t IH]; simpl; [done|]. by rewrite IH. Qed.

Lemma slice_to_app t u : slice_to (t +:+ u) (Z.of_nat (String.length t)) = t.
Proof. unfold slice_to. rewrite Nat2Z.id. apply substring_0_app. Qed.

Lemma slice_from_app t c u :
  slice_from (t +:+ String c u) (Z.of_nat (String.length t) + 1) = u.
Proof.
  unfold slice_from.
  replace (Z.to_nat (Z.of_nat (String.length t) + 1)) with (String.length (t +:+ String c EmptyString)).
  2:{ rewrite length_append. simpl. lia. }
  replace (t +:+ String c u) with ((t +:+ String c EmptyString) +:+ u).
  2:{ clear. induction t as [|b t IH]; [done|]. rewrite !append_cons. by f_equal. }
  rewrite substring_skip_app, length_append.
  replace (String.length (t +:+ String c EmptyString) + String.length u
           - String.length (t +:+ String c EmptyString))%nat
    with (String.length u) by lia.
  apply substring_0_length.
Qed.

Lemma index_byte_cons c b s :
  String.index 0 (String c EmptyString) (String b s) =
  if Ascii.eqb c b then Some 0%nat
  else match String.index 0 (String c EmptyString) s with
       | Some n => Some (S n)
       | None => None
       end.
Proof.
  simpl. destruct (ascii_dec c b) as [->|Hne].
  - rewrite Ascii.eqb_refl. by destruct s.
  - apply Ascii.eqb_neq in Hne. by rewrite Hne.
Qed.

Lemma index_byte_none c s :
  has_byte c s = false -> String.index 0 (String c EmptyString) s = None.
Proof.
  induction s as [|b s IH]; [done|].
  cbn [has_byte]. intros [Hb Hs]%orb_false_iff.
  rewrite index_byte_cons, Hb, IH; done.
Qed.

Lemma index_byte_app c t u :
  has_byte c t = false ->
  String.index 0 (String c EmptyString) (t +:+ String c u) = Some (String.length t).
Proof.
  induction t as [|b t IH].
  - intros _. rewrite append_nil, index_byte_cons.
    by rewrite Ascii.eqb_refl.
  - cbn [has_byte]. intros [Hb Ht]%orb_false_iff.
    rewrite append_cons, index_byte_cons, Hb, IH; done.
Qed.

(** ** strconv.ParseUint against the number the digits denote *)

Lemma byte_of_range c : 0 <= byte_of c < 256.
Proof.
  unfold byte_of. pose proof (N_ascii_bounded c). lia.
Qed.

Lemma digit_of_range c d : digit_of c = Some d -> 0 <= d < 36.
Proof.
  unfold digit_of. pose proof (byte_of_range c).
  repeat case_match; intros [= <-]; lia.
Qed.

Lemma digits_value_ge base acc s v :
  1 <= base -> 0 <= acc -> digits_value base acc s = Some v -> acc <= v.
Proof.
  intros Hb. revert acc. induction s as [|c s IH]; intros acc Hacc; simpl.
  - intros [= <-]. lia.
  - destruct (digit_of c) as [d|] eqn:Hd; [|done].
    apply digit_of_range in Hd.
    destruct (d <? base); [|done].
    intros Hv%IH; nia.
Qed.

Lemma cutoff_overflows base n :
  2 <= base -> maxUint64 / base + 1 <= n -> maxUint64 < n * base.
Proof.
  intros Hb Hn.
  pose proof (Z.div_mod maxUint64 base ltac:(lia)) as Hdm.
  pose proof (Z.mod_pos_bound maxUint64 base ltac:(lia)) as Hm.
  nia.
Qed.

Lemma below_cutoff_fits base n :
  2 <= base -> 0 <= n -> n < maxUint64 / base + 1 -> n * base <= maxUint64.
Proof.
  intros Hb Hn Hlt.
  pose proof (Z.div_mod maxUint64 base ltac:(lia)) as Hdm.
  pose proof (Z.mod_pos_bound maxUint64 base ltac:(lia)) as Hm.
  nia.
Qed.

(** The loop returns a number without error exactly when the bytes are digits
    of the base and the number they denote fits 64 bits; the number is the one
    they denote. *)
Lemma ParseUint_loop_ok base n s v :
  2 <= base <= 36 -> 0 <= n <= maxUint64 ->
  ParseUint_loop base (maxUint64 / base + 1) maxUint64 n s = (v, None)
  <-> digits_value base n s = Some v /\ v <= maxUint64.
Proof.
  intros Hb. revert n. induction s as [|c s IH]; intros n Hn; simpl.
  - split; [intros [= <-]; split; [done|lia] | intros [[= <-] _]; done].
  - destruct (digit_of c) as [d|] eqn:Hd; [|split; [done|intros [? _]; done]].
    apply digit_of_range in Hd.
    destruct (Z.leb_spec base d) as [Hbd|Hbd].
    { destruct (Z.ltb_spec d base); [lia|]. split; [done|intros [? _]; done]. }
    destruct (Z.ltb_spec d base); [|lia].
    destruct (Z.leb_spec (maxUint64 / base + 1) n) as [Hcut|Hcut].
    { split; [done|]. intros [Hv Hmax].
      apply digits_value_ge in Hv; [|lia|nia].
      pose proof (cutoff_overflows base n ltac:(lia) Hcut). lia. }
    pose proof (below_cutoff_fits base n ltac:(lia) ltac:(lia) Hcut) as Hfit.
    assert (uint64 (n * base) = n * base) as ->.
    { unfold uint64. apply Z.mod_small. unfold maxUint64 in *. nia. }
    unfold maxUint64 in *.
    destruct (Z.lt_ge_cases (n * base + d) (2 ^ 64)) as [Hsmall|Hbig].
    + assert (uint64 (n * base + d) = n * base + d) as ->.
      { unfold uint64. apply Z.mod_small. nia. }
      destruct (Z.ltb_spec (n * base + d) (n * base)); [lia|].
      destruct (Z.ltb_spec (2 ^ 64 - 1) (n * base + d)); [lia|].
      simpl. apply IH. nia.
    + assert (uint64 (n * base + d) = n * base + d - 2 ^ 64) as ->.
      { unfold uint64. symmetry. apply (Z.mod_unique _ _ 1); lia. }
      destruct (Z.ltb_spec (n * base + d - 2 ^ 64) (n * base)); [|lia].
      simpl. split; [done|]. intros [Hv Hmax].
      apply digits_value_ge in Hv; [|lia|nia]. lia.
Qed.

Lemma ParseUint_ok base s v :
  2 <= base <= 36 ->
  ParseUint s base 64 = (v, None) <-> numeral base s = Some v /\ v <= maxUint64.
Proof.
  intros Hb. unfold ParseUint, numeral.
  destruct s as [|c s]; [split; [done|intros [? _]; done]|].
  change (uint64 (2 ^ 64 - 1)) with maxUint64.
  apply ParseUint_loop_ok; [done|]. unfold maxUint64. lia.
Qed.

(** ** strconv.FormatUint prints the number back *)

Ltac decimal_digit c k IH :=
  change (digit_of c) with (Some k); change (k <? 10) with true;
  cbv iota beta; rewrite <- IH; cbn [Unsigned.of_lu]; f_equal; lia.

Lemma digits_value_string_of_uint (d d' : uint) :
  digits_value 10 (Z.of_N (Unsigned.of_lu d')) (NilEmpty.string_of_uint d)
  = Some (Z.of_N (Unsigned.of_lu (revapp d d'))).
Proof.
  revert d'. induction d as [|d IH|d IH|d IH|d IH|d IH|d IH|d IH|d IH|d IH|d IH];
    intros d'; [done|..];
    cbn [NilEmpty.string_of_uint digits_value revapp].
  - decimal_digit "0"%char 0 IH.
  - decimal_digit "1"%char 1 IH.
  - decimal_digit "2"%char 2 IH.
  - decimal_digit "3"%char 3 IH.
  - decimal_digit "4"%char 4 IH.
  - decimal_digit "5"%char 5 IH.
  - decimal_digit "6"%char 6 IH.
  - decimal_digit "7"%char 7 IH.
  - decimal_digit "8"%char 8 IH.
  - decimal_digit "9"%char 9 IH.
Qed.

Lemma to_uint_not_nil (n : N) : N.to_uint n <> Nil.
Proof.
  destruct n as [|p]; [done|]. apply Unsigned.to_uint_nonnil.
Qed.

(** The decimal string [FormatUint] prints denotes the number printed, so it
    parses back in base 10. *)
Lemma FormatUint10_numeral n : 0 <= n -> numeral 10 (FormatUint10 n) = Some n.
Proof.
  intros Hn. unfold FormatUint10.
  pose proof (to_uint_not_nil (Z.to_N n)) as Hnil.
  pose proof (DecimalN.Unsigned.of_to (Z.to_N n)) as Hback.
  pose proof (digits_value_string_of_uint (N.to_uint (Z.to_N n)) Nil) as Hval.
  fold (Decimal.rev (N.to_uint (Z.to_N n))) in Hval.
  rewrite <- Unsigned.of_uint_alt in Hval.
  change (Pos.of_uint (N.to_uint (Z.to_N n))) with (N.of_uint (N.to_uint (Z.to_N n)))
    in Hval.
  rewrite Hback, Z2N.id in Hval by done.
  destruct (N.to_uint (Z.to_N n)); done.
Qed.

Lemma FormatUint10_parses n :
  0 <= n <= maxUint64 -> ParseUint (FormatUint10 n) 10 64 = (n, None).
Proof.
  intros Hn. apply ParseUint_ok; [lia|]. split; [|lia].
  apply FormatUint10_numeral. lia.
Qed.

(** ** The trace header normaliser *)

Lemma Header_Get_Set h key value : Header_Get (Header_Set h key value) key = value.
Proof. unfold Header_Get, Header_Set. by rewrite lookup_insert_eq. Qed.

Lemma Index_byte_none c s :
  has_byte c s = false -> Index s (String c EmptyString) = -1.
Proof. intros Hs. unfold Index. by rewrite index_byte_none. Qed.

Lemma Index_byte_app c t u :
  has_byte c t = false ->
  Index (t +:+ String c u) (String c EmptyString) = Z.of_nat (String.length t).
Proof. intros Ht. unfold Index. by rewrite index_byte_app. Qed.

Lemma fixTracingHeader_request_no_slash r :
  has_byte "/" (trace_header r) = false -> fixTracingHeader_request r = r.
Proof.
  intros Hs. unfold fixTracingHeader_request. fold (trace_header r).
  destruct (String.eqb (trace_header r) EmptyString); [done|].
  change "/" with (String "/"%char EmptyString).
  by rewrite (Index_byte_none _ _ Hs).
Qed.

Lemma fixTracingHeader_request_no_semicolon r trace rest :
  trace_header r = trace +:+ "/" +:+ rest ->
  has_byte "/" trace = false -> has_byte ";" rest = false ->
  fixTracingHeader_request r = r.
Proof.
  intros Hh Ht Hr. unfold fixTracingHeader_request. fold (trace_header r).
  rewrite Hh. destruct (String.eqb _ EmptyString); [done|].
  change ("/" +:+ rest) with (String "/"%char rest).
  change "/" with (String "/"%char EmptyString).
  rewrite (Index_byte_app _ _ _ Ht).
  destruct (Z.eqb_spec (Z.of_nat (String.length trace)) (-1)); [lia|].
  rewrite slice_from_app.
  change ";" with (String ";"%char EmptyString).
  by rewrite (Index_byte_none _ _ Hr).
Qed.

(** On a header with both separators the request is forwarded with the
    segments glued back around the span the two parses decide on. *)
Lemma fixTracingHeader_request_segments r trace span flags :
  trace_header r = trace +:+ "/" +:+ span +:+ ";" +:+ flags ->
  has_byte "/" trace = false -> has_byte ";" span = false ->
  fixTracingHeader_request r =
  WithHeader r
    (Header_Set (ReqHeader r) httpHeader
       (trace +:+ "/" +:+
        match ParseUint span 10 64 with
        | (_, None) => span
        | (_, Some _) =>
            match ParseUint span 16 64 with
            | (n, None) => FormatUint10 (uint64 (uint32 n))
            | (_, Some _) => span
            end
        end +:+ ";" +:+ flags)).
Proof.
  intros Hh Ht Hs. unfold fixTracingHeader_request. fold (trace_header r).
  rewrite Hh.
  destruct (String.eqb _ EmptyString) eqn:Hempty.
  { apply String.eqb_eq in Hempty. by destruct trace. }
  change ("/" +:+ span +:+ ";" +:+ flags) with (String "/"%char (span +:+ String ";"%char flags)).
  change "/" with (String "/"%char EmptyString) at 1.
  rewrite (Index_byte_app _ _ _ Ht).
  destruct (Z.eqb_spec (Z.of_nat (String.length trace)) (-1)); [lia|].
  rewrite slice_from_app, slice_to_app.
  change ";" with (String ";"%char EmptyString) at 1.
  rewrite (Index_byte_app _ _ _ Hs).
  destruct (Z.eqb_spec (Z.of_nat (String.length span)) (-1)); [lia|].
  by rewrite slice_from_app, slice_to_app.
Qed.

Lemma digits_value_has_no c base acc s v :
  digit_of c = None -> digits_value base acc s = Some v -> has_byte c s = false.
Proof.
  intros Hc. revert acc. induction s as [|b s IH]; intros acc; simpl; [done|].
  destruct (digit_of b) as [d|] eqn:Hb; [|done].
  destruct (d <? base); [|done].
  intros Hv. rewrite (IH _ Hv), orb_false_r.
  apply Ascii.eqb_neq. intros ->. congruence.
Qed.

Lemma parsed_span_has_no_semicolon base span n :
  2 <= base <= 36 -> ParseUint span base 64 = (n, None) -> has_byte ";" span = false.
Proof.
  intros Hb [Hn _]%ParseUint_ok; [|done].
  destruct span as [|c s]; [done|].
  by apply (digits_value_has_no _ base 0 _ n).
Qed.

(** C5. The normaliser forwards the header value as it came in whenever the
    header has no '/', or no ';' after the '/', or its span segment parses as
    a base-10 unsigned 64-bit integer, or parses neither in base 10 nor in
    base 16; the specification's example header is among them.  (When the
    header is rewritten by [Set] the request keeps that one value only.) *)
Theorem trace_header_forwarded_unmodified (r : Request) :
  (has_byte "/" (trace_header r) = false -> fixTracingHeader_request r = r)
  /\ (forall trace rest,
        trace_header r = trace +:+ "/" +:+ rest ->
        has_byte "/" trace = false -> has_byte ";" rest = false ->
        fixTracingHeader_request r = r)
  /\ (forall trace span flags,
        trace_header r = trace +:+ "/" +:+ span +:+ ";" +:+ flags ->
        has_byte "/" trace = false -> has_byte ";" span = false ->
        snd (ParseUint span 10 64) = None
        \/ (snd (ParseUint span 10 64) <> None /\ snd (ParseUint span 16 64) <> None) ->
        trace_header (fixTracingHeader_request r) = trace_header r)
  /\ trace_header
       (fixTracingHeader_request
          (request_with_trace "105445aa7843bc8bf206b12000100000/1;o=1"))
     = "105445aa7843bc8bf206b12000100000/1;o=1".
Proof.
  split; [apply fixTracingHeader_request_no_slash|].
  split; [apply fixTracingHeader_request_no_semicolon|].
  split; [|by vm_compute].
  intros trace span flags Hh Ht Hs Hparse.
  rewrite (fixTracingHeader_request_segments r trace span flags Hh Ht Hs).
  unfold trace_header at 1. cbn [ReqHeader WithHeader].
  rewrite Header_Get_Set, Hh.
  destruct (ParseUint span 10 64) as [v10 [e10|]]; [|done].
  destruct (ParseUint span 16 64) as [v16 [e16|]]; [done|].
  simpl in Hparse. destruct Hparse as [|[_ ?]]; done.
Qed.

Lemma trace_header_forwarded_unmodified_witness :
  trace_header (fixTracingHeader_request (request_with_trace "abc/zz;o=1"))
  = trace_header (request_with_trace "abc/zz;o=1").
Proof.
  apply (proj1 (proj2 (proj2 (trace_header_forwarded_unmodified
                                (request_with_trace "abc/zz;o=1"))))
           "abc" "zz" "o=1");
    [reflexivity | reflexivity | reflexivity |].
  right. split; vm_compute; discriminate.
Defined.

(** C6. On a header [trace/span;flags] whose span does not parse as a base-10
    unsigned 64-bit integer but does in base 16, with value [n], the forwarded
    header is [trace/d;flags] where [d] is the decimal string of [n] modulo
    2^32. *)
Theorem hex_span_rewritten_decimal_mod_2_32
  (r : Request) (trace span flags : string) (n : Z) :
  trace_header r = trace +:+ "/" +:+ span +:+ ";" +:+ flags ->
  has_byte "/" trace = false ->
  snd (ParseUint span 10 64) <> None ->
  ParseUint span 16 64 = (n, None) ->
  numeral 16 span = Some n
  /\ trace_header (fixTracingHeader_request r)
     = trace +:+ "/" +:+ FormatUint10 (n mod 2 ^ 32) +:+ ";" +:+ flags
  /\ numeral 10 (FormatUint10 (n mod 2 ^ 32)) = Some (n mod 2 ^ 32).
Proof.
  intros Hh Ht H10 H16.
  split; [by apply ParseUint_ok in H16 as [? _]|].
  split.
  - pose proof (parsed_span_has_no_semicolon 16 span n ltac:(lia) H16) as Hs.
    rewrite (fixTracingHeader_request_segments r trace span flags Hh Ht Hs).
    unfold trace_header at 1. cbn [ReqHeader WithHeader].
    rewrite Header_Get_Set, H16.
    destruct (ParseUint span 10 64) as [v10 [e10|]]; [|done].
    unfold uint64, uint32.
    rewrite (Z.mod_small (n mod 2 ^ 32)); [done|].
    pose proof (Z.mod_pos_bound n (2 ^ 32) ltac:(lia)). lia.
  - apply FormatUint10_numeral.
    pose proof (Z.mod_pos_bound n (2 ^ 32) ltac:(lia)). lia.
Qed.

Lemma hex_span_rewritten_decimal_mod_2_32_witness :
  numeral 16 "ff" = Some 255
  /\ trace_header
       (fixTracingHeader_request
          (request_with_trace "105445aa7843bc8bf206b12000100000/ff;o=1"))
     = "105445aa7843bc8bf206b12000100000/" +:+ FormatUint10 (255 mod 2 ^ 32) +:+ ";" +:+ "o=1"
  /\ numeral 10 (FormatUint10 (255 mod 2 ^ 32)) = Some (255 mod 2 ^ 32).
Proof.
  apply (hex_span_rewritten_decimal_mod_2_32
           (request_with_trace "105445aa7843bc8bf206b12000100000/ff;o=1")
           "105445aa7843bc8bf206b12000100000" "ff" "o=1" 255);
    [reflexivity | reflexivity | vm_compute; discriminate | reflexivity].
Defined.

(** The specification's example: the span [ff] is forwarded as [255]. *)
Example hex_span_ff :
  trace_header
    (fixTracingHeader_request
       (request_with_trace "105445aa7843bc8bf206b12000100000/ff;o=1"))
  = "105445aa7843bc8bf206b12000100000/255;o=1".
Proof. reflexivity. Qed.

(** ** strconv.Atoi against the integer the literal denotes *)

Lemma Atoi_loop_digits n s :
  0 <= n -> (n + 1) * 10 ^ Z.of_nat (String.length s) <= 2 ^ 63 ->
  Atoi_loop n s = digits_value 10 n s.
Proof.
  revert n. induction s as [|c s IH]; intros n Hn Hfit; [done|].
  cbn [Atoi_loop digits_value String.length] in *.
  rewrite Nat2Z.inj_succ, Z.pow_succ_r in Hfit by lia.
  assert (0 < 10 ^ Z.of_nat (String.length s)) as Hpow by (apply Z.pow_pos_nonneg; lia).
  pose proof (byte_of_range c) as Hc. unfold digit_of.
  destruct (Z.leb_spec 48 (byte_of c)) as [Hlo|Hlo];
    destruct (Z.leb_spec (byte_of c) 57) as [Hhi|Hhi]; cbn [andb].
  - rewrite (Z.mod_small (byte_of c - 48)) by lia.
    destruct (Z.ltb_spec 9 (byte_of c - 48)); [lia|].
    destruct (Z.ltb_spec (byte_of c - 48) 10); [|lia].
    rewrite wrap64_small by nia. apply IH; nia.
  - rewrite (Z.mod_small (byte_of c - 48)) by lia.
    destruct (Z.ltb_spec 9 (byte_of c - 48)); [|lia].
    destruct ((97 <=? byte_of c) && (byte_of c <=? 122)) eqn:Hlower.
    { apply andb_true_iff in Hlower as [?%Z.leb_le _].
      destruct (Z.ltb_spec (byte_of c - 97 + 10) 10); [lia|done]. }
    destruct ((65 <=? byte_of c) && (byte_of c <=? 90)) eqn:Hupper; [|done].
    apply andb_true_iff in Hupper as [?%Z.leb_le _].
    destruct (Z.ltb_spec (byte_of c - 65 + 10) 10); [lia|done].
  - assert ((byte_of c - 48) mod 256 = byte_of c + 208) as ->.
    { symmetry. apply (Z.mod_unique _ _ (-1)); lia. }
    destruct (Z.ltb_spec 9 (byte_of c + 208)); [|lia].
    destruct ((97 <=? byte_of c) && (byte_of c <=? 122)) eqn:Hlower.
    { apply andb_true_iff in Hlower as [?%Z.leb_le _].
      destruct (Z.ltb_spec (byte_of c - 97 + 10) 10); [lia|done]. }
    destruct ((65 <=? byte_of c) && (byte_of c <=? 90)) eqn:Hupper; [|done].
    apply andb_true_iff in Hupper as [?%Z.leb_le _].
    destruct (Z.ltb_spec (byte_of c - 65 + 10) 10); [lia|done].
  - lia.
Qed.

Lemma ParseUint_loop_range base cutoff maxVal n s v :
  ParseUint_loop base cutoff maxVal n s = (v, Some ErrRange) -> v = maxVal.
Proof.
  revert n. induction s as [|c s IH]; intros n; simpl; [done|].
  repeat case_match; try done; try (intros [= <-]; done). apply IH.
Qed.

Lemma numeral_nonneg s v : numeral 10 s = Some v -> 0 <= v.
Proof.
  destruct s as [|c s]; [done|]. unfold numeral.
  intros Hv. apply digits_value_ge in Hv; lia.
Qed.

(** What [ParseInt] makes of the outcome of [ParseUint]. *)
Lemma ParseInt10_signed (neg : bool) digits v :
  match ParseUint digits 10 64 with
  | (_, Some ErrSyntax) => (0, Some ErrSyntax)
  | (un, _) =>
      if negb neg && (2 ^ 63 <=? un) then (2 ^ 63 - 1, Some ErrRange)
      else if neg && (2 ^ 63 <? un) then (- 2 ^ 63, Some ErrRange)
      else (if neg then wrap64 (- wrap64 un) else wrap64 un, None)
  end = (v, None)
  <-> (if neg then Z.opp <$> numeral 10 digits else numeral 10 digits) = Some v
      /\ - 2 ^ 63 <= v < 2 ^ 63.
Proof.
  destruct (ParseUint digits 10 64) as [un [[]|]] eqn:Hp.
  - split; [done|]. intros [Hv Hr].
    assert (exists u, numeral 10 digits = Some u /\ u <= maxUint64) as (u & Hu & Hmax).
    { destruct neg, (numeral 10 digits) as [u|] eqn:Hu; simplify_eq/=;
        eexists; (split; [done|]); unfold maxUint64; lia. }
    pose proof (proj2 (ParseUint_ok 10 digits u ltac:(lia)) (conj Hu Hmax)).
    congruence.
  - assert (un = maxUint64) as ->.
    { unfold ParseUint in Hp. destruct digits; [done|].
      by apply ParseUint_loop_range in Hp. }
    unfold maxUint64.
    split.
    + destruct neg; simpl; repeat case_match; try done; lia.
    + intros [Hv Hr].
      assert (exists u, numeral 10 digits = Some u /\ u <= maxUint64) as (u & Hu & Hmax).
      { destruct neg, (numeral 10 digits) as [u|] eqn:Hu; simplify_eq/=;
          eexists; (split; [done|]); unfold maxUint64; lia. }
      pose proof (proj2 (ParseUint_ok 10 digits u ltac:(lia)) (conj Hu Hmax)).
      congruence.
  - apply ParseUint_ok in Hp as [Hu Hmax]; [|lia]. rewrite Hu.
    pose proof (numeral_nonneg _ _ Hu) as Hnn. unfold maxUint64 in Hmax.
    destruct neg; cbn [negb andb fmap option_fmap option_map].
    + destruct (Z.ltb_spec (2 ^ 63) un).
      * split; [done|]. intros [[= <-] ?]. lia.
      * destruct (Z.eq_dec un (2 ^ 63)) as [->|Hne].
        { split; [intros [= <-]; by vm_compute|]. intros [[= <-] _]. by vm_compute. }
        rewrite (wrap64_small un) by lia. rewrite wrap64_small by lia.
        split; [intros [= <-]; split; [done|lia] | intros [[= <-] _]; done].
    + destruct (Z.leb_spec (2 ^ 63) un).
      * split; [done|]. intros [[= <-] ?]. lia.
      * rewrite wrap64_small by lia.
        split; [intros [= <-]; split; [done|lia] | intros [[= <-] _]; done].
Qed.

Lemma digits_value_lt acc s v :
  0 <= acc -> digits_value 10 acc s = Some v ->
  v < (acc + 1) * 10 ^ Z.of_nat (String.length s).
Proof.
  revert acc. induction s as [|c s IH]; intros acc Hacc; simpl digits_value.
  - intros [= <-]. simpl. lia.
  - destruct (digit_of c) as [d|] eqn:Hd; [|done].
    apply digit_of_range in Hd.
    destruct (Z.ltb_spec d 10); [|done].
    intros Hv%IH; [|nia]. cbn [String.length].
    rewrite Nat2Z.inj_succ, Z.pow_succ_r by lia.
    assert (0 < 10 ^ Z.of_nat (String.length s)) by (apply Z.pow_pos_nonneg; lia).
    nia.
Qed.

Lemma short_literal_fits (s : string) :
  Z.of_nat (String.length s) < 19 -> (0 + 1) * 10 ^ Z.of_nat (String.length s) <= 2 ^ 63.
Proof.
  intros Hlen.
  assert (10 ^ Z.of_nat (String.length s) <= 10 ^ 18) by (apply Z.pow_le_mono_r; lia).
  lia.
Qed.

(** The fast path on the digits that follow the sign. *)
Lemma Atoi_fast_digits (neg : bool) digits v :
  digits <> EmptyString -> Z.of_nat (String.length digits) < 19 ->
  match Atoi_loop 0 digits with
  | None => (0, Some ErrSyntax)
  | Some n => (if neg then wrap64 (- n) else n, None)
  end = (v, None)
  <-> (if neg then Z.opp <$> numeral 10 digits else numeral 10 digits) = Some v
      /\ - 2 ^ 63 <= v < 2 ^ 63.
Proof.
  intros Hne Hlen.
  pose proof (short_literal_fits digits Hlen) as Hfit.
  rewrite Atoi_loop_digits by (done || lia).
  replace (numeral 10 digits) with (digits_value 10 0 digits) by (by destruct digits).
  destruct (digits_value 10 0 digits) as [n|] eqn:Hn;
    [|split; [done|by destruct neg; intros [? _]]].
  pose proof (digits_value_ge 10 0 digits n ltac:(lia) ltac:(lia) Hn).
  pose proof (digits_value_lt 0 digits n ltac:(lia) Hn).
  destruct neg; cbn [fmap option_fmap option_map].
  - rewrite wrap64_small by lia.
    split; [intros [= <-]; split; [done|lia] | intros [[= <-] _]; done].
  - split; [intros [= <-]; split; [done|lia] | intros [[= <-] _]; done].
Qed.

(** [Atoi] returns a number without error exactly when the string is a
    decimal literal, with an optional sign, of an integer that fits 64 bits;
    the number is that integer. *)
Lemma Atoi_ok s v :
  Atoi s = (v, None) <-> integer_literal s = Some v /\ - 2 ^ 63 <= v < 2 ^ 63.
Proof.
  unfold Atoi.
  destruct ((0 <? Z.of_nat (String.length s)) && (Z.of_nat (String.length s) <? 19))
    eqn:Hshort.
  - apply andb_true_iff in Hshort as [_ Hlen%Z.ltb_lt].
    destruct s as [|c s]; [split; [done|intros [? _]; done]|].
    cbn [integer_literal]. cbn [String.length] in Hlen.
    destruct (Ascii.eqb c "-") eqn:Hminus; cbn [orb andb].
    { destruct s as [|c' s]; [split; [done|intros [? _]; done]|].
      destruct (Z.ltb_spec (Z.of_nat (String.length (String c' s))) 1);
        [cbn [String.length] in *; lia|].
      apply (Atoi_fast_digits true); [done|lia]. }
    destruct (Ascii.eqb c "+") eqn:Hplus; cbn [orb andb].
    { destruct s as [|c' s]; [split; [done|intros [? _]; done]|].
      destruct (Z.ltb_spec (Z.of_nat (String.length (String c' s))) 1);
        [cbn [String.length] in *; lia|].
      apply (Atoi_fast_digits false); [done|lia]. }
    apply (Atoi_fast_digits false); [done|cbn [String.length]; lia].
  - destruct s as [|c s]; [split; [done|intros [? _]; done]|].
    unfold ParseInt10. cbn [integer_literal].
    destruct (Ascii.eqb c "-") eqn:Hminus.
    { rewrite orb_true_r. apply (ParseInt10_signed true). }
    rewrite orb_false_r.
    destruct (Ascii.eqb c "+") eqn:Hplus; apply (ParseInt10_signed false).
Qed.

(** ** The development switch *)

Lemma IsDevelopment_iff_literal_one g :
  IsDevelopment g = true
  <-> integer_literal (Getenv (environ g) "DEVELOPMENT") = Some 1.
Proof.
  unfold IsDevelopment.
  destruct (String.eqb_spec (Getenv (environ g) "DEVELOPMENT") EmptyString) as [->|Hne];
    cbn [negb]; [done|].
  destruct (Atoi (Getenv (environ g) "DEVELOPMENT")) as [v err] eqn:Ha.
  split.
  - destruct err; [done|]. intros ->%Z.eqb_eq. by apply Atoi_ok in Ha as [? _].
  - intros Hlit.
    assert (Atoi (Getenv (environ g) "DEVELOPMENT") = (1, None)) as Hone
      by (apply Atoi_ok; split; [done|lia]).
    rewrite Ha in Hone. by injection Hone as -> ->.
Qed.

(** C7, amended. Development mode is on exactly when DEVELOPMENT is a decimal
    literal of the integer 1; it is off when the variable is unset or empty,
    when it is not an integer literal, and when it denotes zero or any other
    integer. *)
Theorem development_mode_iff_one (g : World) :
  (IsDevelopment g = true
   <-> integer_literal (Getenv (environ g) "DEVELOPMENT") = Some 1)
  /\ (Getenv (environ g) "DEVELOPMENT" = EmptyString -> IsDevelopment g = false)
  /\ (integer_literal (Getenv (environ g) "DEVELOPMENT") = None ->
      IsDevelopment g = false)
  /\ (forall n, integer_literal (Getenv (environ g) "DEVELOPMENT") = Some n ->
      n <> 1 -> IsDevelopment g = false).
Proof.
  pose proof (IsDevelopment_iff_literal_one g) as Hiff.
  split; [done|].
  split; [intros Hempty; unfold IsDevelopment; by rewrite Hempty|].
  split.
  - intros Hnone. destruct (IsDevelopment g); [|done].
    destruct Hiff as [Hiff _]. rewrite Hiff in Hnone; done.
  - intros n Hn Hne. destruct (IsDevelopment g); [|done].
    destruct Hiff as [Hiff _]. rewrite Hiff in Hn; [|done]. congruence.
Qed.

Lemma development_mode_iff_one_witness :
  IsDevelopment (world_with_environ ["ENVIRONMENT=local"; "DEVELOPMENT=+01"]) = true
  /\ IsDevelopment (world_with_environ ["DEVELOPMENT=7"]) = false.
Proof.
  split.
  - apply (proj1 (development_mode_iff_one
                    (world_with_environ ["ENVIRONMENT=local"; "DEVELOPMENT=+01"]))).
    reflexivity.
  - apply (proj2 (proj2 (proj2 (development_mode_iff_one
                                  (world_with_environ ["DEVELOPMENT=7"])))) 7);
      [reflexivity | lia].
Defined.

(** C7 as stated fails: DEVELOPMENT=2 denotes a nonzero integer and leaves
    development mode off. *)
Lemma development_two_is_not_development :
  ~ nonzero_enables_development (world_with_environ ["DEVELOPMENT=2"]).
Proof.
  intros Hclaim. specialize (Hclaim 2 eq_refl ltac:(lia)).
  vm_compute in Hclaim. discriminate Hclaim.
Qed.

(** ** Splitting at '=' *)

Lemma index_byte_none_inv c s :
  String.index 0 (String c EmptyString) s = None -> has_byte c s = false.
Proof.
  induction s as [|b s IH]; [done|].
  rewrite index_byte_cons. cbn [has_byte].
  destruct (Ascii.eqb c b); [done|].
  destruct (String.index 0 (String c EmptyString) s); [done|].
  intros _. by rewrite IH.
Qed.

Lemma Split_from_not_nil fuel s sep : Split_from fuel s sep <> [].
Proof. destruct fuel; simpl; [done|]. by destruct (String.index 0 sep s). Qed.

Lemma Split_without_byte c s :
  has_byte c s = false -> Split s (String c EmptyString) = [s].
Proof.
  intros Hs. unfold Split. destruct (String.length s); simpl; [done|].
  by rewrite index_byte_none.
Qed.

Lemma Split_with_byte c s :
  has_byte c s = true -> exists p0 p1 tl, Split s (String c EmptyString) = p0 :: p1 :: tl.
Proof.
  intros Hs. unfold Split.
  destruct (String.index 0 (String c EmptyString) s) as [i|] eqn:Hi.
  2:{ apply index_byte_none_inv in Hi. congruence. }
  destruct s as [|b s]; [done|]. cbn [String.length Split_from]. rewrite Hi.
  match goal with |- context [Split_from ?f ?x ?y] =>
    pose proof (Split_from_not_nil f x y); destruct (Split_from f x y) as [|p1 tl] end;
    [done|eauto].
Qed.

Lemma has_equals_dec s : {has_equals s} + {has_byte "=" s = false}.
Proof. unfold has_equals. destruct (has_byte "=" s); [by left|by right]. Qed.

(** ** The label cache *)

Lemma scanLabels_done lines labels :
  Forall has_equals lines -> exists m, scanLabels lines labels = (m, Done).
Proof.
  intros Hall. revert labels.
  induction Hall as [|text lines Htext Hall IH]; intros labels; simpl; [eauto|].
  change "=" with (String "="%char EmptyString).
  destruct (Split_with_byte _ _ Htext) as (p0 & p1 & tl & ->). apply IH.
Qed.

Lemma scanLabels_panic lines labels :
  Exists (fun text => has_byte "=" text = false) lines ->
  exists m, scanLabels lines labels = (m, Panic indexOutOfRange).
Proof.
  intros Hex. revert labels.
  induction Hex as [text lines Htext|text lines Hex IH]; intros labels; simpl.
  - change "=" with (String "="%char EmptyString).
    rewrite (Split_without_byte _ _ Htext). eauto.
  - change "=" with (String "="%char EmptyString).
    destruct (Split text (String "="%char EmptyString)) as [|p0 [|p1 tl]]; eauto.
Qed.

Lemma Forall_or_Exists_equals lines :
  Forall has_equals lines \/ Exists (fun text => has_byte "=" text = false) lines.
Proof.
  induction lines as [|text lines [IH|IH]]; [by left| |right; by constructor].
  destruct (has_equals_dec text); [left|right]; by constructor.
Qed.

(** ** The environment cache *)

Lemma scanEnviron_outcome lookupMap es vars :
  exists m, (scanEnviron false lookupMap es vars = (m, Done) /\ Forall has_equals es)
            \/ (scanEnviron false lookupMap es vars = (m, Panic indexOutOfRange)
                /\ ~ Forall has_equals es).
Proof.
  revert vars. induction es as [|e es IH]; intros vars; simpl; [eauto|].
  change "=" with (String "="%char EmptyString).
  destruct (has_equals_dec e) as [He|He].
  - destruct (Split_with_byte _ _ He) as (p0 & p1 & tl & ->).
    destruct (IH (<[p0:=p1]> vars)) as [m [[Hm Hall]|[Hm Hno]]]; exists m; [left|right].
    + split; [done|]. by constructor.
    + split; [done|]. by intros [_ ?]%Forall_cons.
  - rewrite (Split_without_byte _ _ He). exists vars. right. split; [done|].
    intros [He' _]%Forall_cons. unfold has_equals in He'. congruence.
Qed.

Lemma set_environmentVariables_same g :
  set_environmentVariables g (environmentVariables g) = g.
Proof. by destruct g. Qed.

Lemma set_podLabels_same g : set_podLabels g (podLabels g) = g.
Proof. by destruct g. Qed.

(** [getEnvironmentVariables] touches nothing but its cache, returns when
    the listing is well formed, and panics with an index error only. *)
Lemma getEnvironmentVariables_run g :
  exists res c,
    getEnvironmentVariables g = (res, set_environmentVariables g c)
    /\ (environ_loads g <-> exists vars, res = Ok vars)
    /\ (forall msg, res = Panicked msg -> msg = indexOutOfRange).
Proof.
  unfold getEnvironmentVariables, environ_loads.
  destruct (environmentVariables g) as [vars|] eqn:Hc.
  - exists (Ok vars), (Some vars). rewrite <- Hc, set_environmentVariables_same.
    split; [done|]. split; [|done]. rewrite Hc. split; [eauto|]. intros _. left. eauto.
  - match goal with |- context [scanEnviron false ?lm ?es ?v] =>
      destruct (scanEnviron_outcome lm es v) as [m [[Hm Hall]|[Hm Hno]]]; rewrite Hm end.
    + exists (Ok m), (Some m). split; [done|]. split; [|done].
      split; [eauto|]. intros _. by right.
    + exists (Panicked indexOutOfRange), (Some m). split; [done|].
      split; [|by intros msg [= <-]].
      split; [|by intros [? ?]].
      intros [[? Hsome]|Hall]; [congruence|done].
Qed.

Lemma getServiceLabels_run g :
  exists res c,
    getServiceLabels g = (res, set_podLabels g c)
    /\ (labels_load g <-> exists labels, res = Ok labels)
    /\ (forall msg, res = Panicked msg -> msg = indexOutOfRange).
Proof.
  unfold getServiceLabels, labels_load.
  destruct (podLabels g) as [labels|] eqn:Hc.
  - exists (Ok labels), (Some labels). rewrite <- Hc, set_podLabels_same.
    split; [done|]. split; [|done]. split; [eauto|]. intros _. left. rewrite Hc. eauto.
  - destruct (files g (labelsFilename g)) as [[e]|[lines scanErr]].
    + eexists (Ok _), _. split; [done|]. split; [|done].
      split; [eauto|]. intros _. by right.
    + destruct (Forall_or_Exists_equals lines) as [Hall|Hex].
      * destruct (scanLabels_done lines ∅ Hall) as [m ->].
        eexists (Ok _), _. split; [done|]. split; [|done].
        split; [eauto|]. intros _. by right.
      * destruct (scanLabels_panic lines ∅ Hex) as [m ->].
        exists (Panicked indexOutOfRange), (Some m). split; [done|].
        assert (~ Forall has_equals lines) as Hno.
        { intros Hall. apply Exists_exists in Hex as (text & Hin & Htext).
          rewrite Forall_forall in Hall. specialize (Hall text Hin).
          unfold has_equals in Hall. congruence. }
        split; [|by intros msg [= <-]].
        split; [|by intros [? ?]].
        intros [[? Hsome]|Hall]; [congruence|done].
Qed.

Lemma labels_load_set_environmentVariables g c :
  labels_load (set_environmentVariables g c) <-> labels_load g.
Proof. done. Qed.

(** [getServiceInfo] returns exactly when both caches load, and otherwise
    panics with an index error; it leaves the clock, the log, the timers and
    the network as they were. *)
Lemma getServiceInfo_run s g :
  exists res g',
    getServiceInfo s g = (res, g')
    /\ clock g' = clock g /\ logged g' = logged g /\ timers g' = timers g
    /\ fetch g' = fetch g
    /\ (environ_loads g /\ labels_load g <-> exists info, res = Ok info)
    /\ (forall msg, res = Panicked msg -> msg = indexOutOfRange).
Proof.
  unfold getServiceInfo.
  destruct (getEnvironmentVariables_run g) as (res1 & c1 & -> & Hok1 & Hpanic1).
  destruct res1 as [vars|msg1].
  - destruct (getServiceLabels_run (set_environmentVariables g c1))
      as (res2 & c2 & -> & Hok2 & Hpanic2).
    rewrite labels_load_set_environmentVariables in Hok2.
    destruct res2 as [labels|msg2].
    + eexists (Ok _), _. split; [done|]. do 4 (split; [done|]).
      split; [|done]. split; [eauto|]. intros _. split; [apply Hok1|apply Hok2]; eauto.
    + eexists (Panicked msg2), _. split; [done|]. do 4 (split; [done|]).
      split; [|intros msg [= <-]; by apply Hpanic2].
      split; [|by intros [? ?]].
      intros [_ Hl%Hok2]. by destruct Hl.
  - eexists (Panicked msg1), _. split; [done|]. do 4 (split; [done|]).
    split; [|intros msg [= <-]; by apply Hpanic1].
    split; [|by intros [? ?]].
    intros [He%Hok1 _]. by destruct He.
Qed.

(** ** The endpoint handlers under the router's chain *)

Section endpoints.
Context `{Codec} {W : Type} `{RW : ResponseWriter W}.

Lemma health_chain_run (w : W) r g :
  exists l g',
    adapt healthCheck [addRequestTimeout; logHTTPRequest] W RW w r g
    = (Done, rw_WriteHeader StatusOK w, g')
    /\ last_access g' = Some l /\ al_status l = StatusOK /\ al_length l = 0.
Proof.
  eexists _, _. split; [reflexivity|]. split; [apply last_access_emit|done].
Qed.

(** The two JSON handlers write the status 200 before they compute anything;
    what comes after either panics in [getServiceInfo] or writes the body
    once. *)
Lemma index_chain_run (s : service) (w : W) r g :
  let w2 := rw_WriteHeader StatusOK (rw_HeaderSet "Content-Type" "application/json" w) in
  exists res g1,
    getServiceInfo s (set_timers g (timers g + 1)) = (res, g1)
    /\ match res with
       | Panicked msg =>
           adapt (indexHandler s) [addRequestTimeout; logHTTPRequest] W RW w r g
           = (Panic msg, w2, cancel g1)
       | Ok info =>
           exists l g',
             adapt (indexHandler s) [addRequestTimeout; logHTTPRequest] W RW w r g
             = (Done,
                Encode (JObject (<["request" := getRequestInfo r]>
                                   (<["service" := info]> ∅))) w2,
                g')
             /\ last_access g' = Some l /\ al_status l = StatusOK
       end.
Proof.
  intros w2. cbn [adapt]. unfold logHTTPRequest, addRequestTimeout, indexHandler.
  cbn [WithTimeout].
  destruct (getServiceInfo s (set_timers g (timers g + 1))) as [[info|msg] g1] eqn:Hinfo.
  - exists (Ok info), g1. split; [done|].
    unfold Encode. cbn [rw_Write rw_WriteHeader rw_HeaderSet statusWriter_ResponseWriter].
    unfold statusWriter_Write, statusWriter_WriteHeader, statusWriter_HeaderSet.
    cbn [statusWriter.inner statusWriter.status statusWriter.length].
    destruct (rw_Write _ _) as [w3 [n err]] eqn:Hw. cbn [fst].
    eexists _, _. split; [reflexivity|]. split; [apply last_access_emit|done].
  - exists (Panicked msg), g1. split; [done|]. reflexivity.
Qed.

Lemma call_chain_run (s : service) (w : W) r g :
  let w2 := rw_WriteHeader StatusOK (rw_HeaderSet "Content-Type" "application/json" w) in
  exists res g1,
    getServiceInfo s (set_timers g (timers g + 1)) = (res, g1)
    /\ match res with
       | Panicked msg =>
           adapt (callHandler s) [addRequestTimeout; logHTTPRequest] W RW w r g
           = (Panic msg, w2, cancel g1)
       | Ok info =>
           exists l g',
             adapt (callHandler s) [addRequestTimeout; logHTTPRequest] W RW w r g
             = (Done,
                Encode (JObject
                          (<["called" := JObject (getJSONResponse r g1)]>
                             (<["request" := getRequestInfo r]>
                                (<["service" := info]> ∅)))) w2,
                g')
             /\ last_access g' = Some l /\ al_status l = StatusOK
       end.
Proof.
  intros w2. cbn [adapt]. unfold logHTTPRequest, addRequestTimeout, callHandler.
  cbn [WithTimeout].
  destruct (getServiceInfo s (set_timers g (timers g + 1))) as [[info|msg] g1] eqn:Hinfo.
  - exists (Ok info), g1. split; [done|].
    unfold Encode. cbn [rw_Write rw_WriteHeader rw_HeaderSet statusWriter_ResponseWriter].
    unfold statusWriter_Write, statusWriter_WriteHeader, statusWriter_HeaderSet.
    cbn [statusWriter.inner statusWriter.status statusWriter.length].
    destruct (rw_Write _ _) as [w3 [n err]] eqn:Hw. cbn [fst].
    eexists _, _. split; [reflexivity|]. split; [apply last_access_emit|done].
  - exists (Panicked msg), g1. split; [done|]. reflexivity.
Qed.

End endpoints.

(** What [getJSONResponse] puts into the [called] object: a failure always
    shows as an [error] field (with [response_raw] next to it when the body
    was not JSON), a success as a [response] field without one. *)
Lemma getJSONResponse_fields `{Codec} r g :
  let called := getJSONResponse r g in
  (called !! "response" = None -> is_Some (called !! "error"))
  /\ (is_Some (called !! "response") -> called !! "error" = None)
  /\ (is_Some (called !! "response_raw") -> is_Some (called !! "error"))
  /\ (forall k, is_Some (called !! k) ->
        k = "url" \/ k = "error" \/ k = "response_raw" \/ k = "response").
Proof.
  unfold getJSONResponse.
  repeat case_match; simplify_map_eq;
    (split; [intros; simplify_map_eq; eauto|]);
    (split; [intros [? ?]; simplify_map_eq; eauto|]);
    (split; [intros [? ?]; simplify_map_eq; eauto|]);
    intros k [x Hx];
    repeat match goal with
    | Hl : <[?i:=_]> _ !! ?k = Some _ |- _ =>
        destruct (decide (i = k)) as [<-|]; [by eauto|rewrite lookup_insert_ne in Hl by done]
    end; by rewrite lookup_empty in Hx.
Qed.

Lemma getJSONResponse_network `{Codec} r g g' :
  fetch g' = fetch g -> getJSONResponse r g' = getJSONResponse r g.
Proof. intros Hf. unfold getJSONResponse. by rewrite Hf. Qed.

Lemma response_json_written `{Codec} (w : response) v :
  resp_status w = None ->
  let w2 := rw_WriteHeader StatusOK (rw_HeaderSet "Content-Type" "application/json" w) in
  resp_status w2 = Some StatusOK
  /\ resp_status (Encode v w2) = Some StatusOK
  /\ resp_body (Encode v w2) = (resp_body w ++ json_Marshal v ++ [Byte.x0a])%list.
Proof.
  intros Hw. unfold Encode. cbn. by rewrite Hw.
Qed.

(** Where the endpoints do what C9 says: on a documented path the router
    writes 200 and no other status; the handler returns when both caches
    load, and a failure of the [url] parameter or of the outbound call shows
    as a field of the [called] object. *)
Lemma router_answers_200 `{Codec}
  (r : Request) (g : World) (w : response) :
  documented (Path r) -> resp_status w = None ->
  exists o w' g',
    getRouter response _ w r g = (o, w', g')
    /\ resp_status w' = Some StatusOK
    /\ (o = Done -> exists l, last_access g' = Some l /\ al_status l = StatusOK)
    /\ (environ_loads g -> labels_load g -> o = Done)
    /\ (forall msg, o = Panic msg ->
          msg = indexOutOfRange /\ ~ (environ_loads g /\ labels_load g))
    /\ (Path r = "/call/" -> o = Done ->
        exists info,
          resp_body w' =
          (resp_body w
           ++ json_Marshal
                (JObject (<["called" := JObject (getJSONResponse r g)]>
                            (<["request" := getRequestInfo r]>
                               (<["service" := info]> ∅))))
           ++ [Byte.x0a])%list)
    /\ (getJSONResponse r g !! "response" = None ->
        is_Some (getJSONResponse r g !! "error")).
Proof.
  intros Hdoc Hw.
  pose proof (getJSONResponse_fields r g) as (Hfields & _).
  unfold getRouter.
  destruct Hdoc as [Hp|[Hp|[Hp|Hp]]]; rewrite Hp; simpl (String.eqb _ _); cbv iota.
  - destruct (index_chain_run (newService "Inspector") w r g) as (res & g1 & Hinfo & Hrun).
    destruct (getServiceInfo_run (newService "Inspector") (set_timers g (timers g + 1)))
      as (res' & g1' & Hinfo' & _ & _ & _ & _ & Hok & Hpanic).
    rewrite Hinfo in Hinfo'. injection Hinfo' as <- <-.
    destruct res as [info|msg].
    + destruct Hrun as (l & g' & -> & Hl & Hst).
      destruct (response_json_written w
                  (JObject (<["request" := getRequestInfo r]> (<["service" := info]> ∅))) Hw)
        as (_ & Hs & _).
      eexists _, _, _. split; [done|]. split; [exact Hs|].
      split; [eauto|]. split; [done|]. split; [done|]. split; [|done].
      intros Hcall. discriminate Hcall.
    + rewrite Hrun. eexists _, _, _. split; [done|].
      split; [cbn; by rewrite Hw|]. split; [done|].
      assert (~ (environ_loads g /\ labels_load g)) as Hno
        by (intros Hl%Hok; by destruct Hl).
      split; [intros He Hl; by destruct Hno|].
      split; [intros m [= <-]; split; [by apply Hpanic|done]|]. split; [done|done].
  - destruct (call_chain_run (newService "Inspector") w r g) as (res & g1 & Hinfo & Hrun).
    destruct (getServiceInfo_run (newService "Inspector") (set_timers g (timers g + 1)))
      as (res' & g1' & Hinfo' & _ & _ & _ & Hfetch & Hok & Hpanic).
    rewrite Hinfo in Hinfo'. injection Hinfo' as <- <-.
    rewrite (getJSONResponse_network r g g1 Hfetch) in Hrun.
    destruct res as [info|msg].
    + destruct Hrun as (l & g' & -> & Hl & Hst).
      destruct (response_json_written w
                  (JObject (<["called" := JObject (getJSONResponse r g)]>
                              (<["request" := getRequestInfo r]>
                                 (<["service" := info]> ∅)))) Hw)
        as (_ & Hs & Hbody).
      eexists _, _, _. split; [done|]. split; [exact Hs|].
      split; [eauto|]. split; [done|]. split; [done|]. split; [|done].
      intros _ _. by exists info.
    + rewrite Hrun. eexists _, _, _. split; [done|].
      split; [cbn; by rewrite Hw|]. split; [done|].
      assert (~ (environ_loads g /\ labels_load g)) as Hno
        by (intros Hl%Hok; by destruct Hl).
      split; [intros He Hl; by destruct Hno|].
      split; [intros m [= <-]; split; [by apply Hpanic|done]|]. split; [done|done].
  - destruct (health_chain_run w r g) as (l & g' & -> & Hl & Hst & _).
    eexists _, _, _. split; [done|]. split; [cbn; by rewrite Hw|].
    split; [eauto|]. split; [done|]. split; [done|]. split; [|done].
    intros Hcall. discriminate Hcall.
  - destruct (health_chain_run w r g) as (l & g' & -> & Hl & Hst & _).
    eexists _, _, _. split; [done|]. split; [cbn; by rewrite Hw|].
    split; [eauto|]. split; [done|]. split; [done|]. split; [|done].
    intros Hcall. discriminate Hcall.
Qed.

Lemma fixTracingHeader_request_target r :
  Path (fixTracingHeader_request r) = Path r
  /\ Query (fixTracingHeader_request r) = Query r.
Proof.
  unfold fixTracingHeader_request. by repeat case_match.
Qed.

(** C9 at the failing input.  A request for [/] or [/call/] that finds the
    environment listing or the label file malformed (an entry or a line
    without [=]) while the cache is still empty makes the handler panic with
    the index error after [WriteHeader(200)] and before the first byte of the
    body: nothing has been handed to the connection, net/http recovers the
    panic and closes it, and the request is answered neither with 200 nor with
    an [error] field.  No access line is logged for it. *)
Theorem documented_endpoint_panics_without_answer `{Codec}
  (r : Request) (g : World) (w : response) :
  Path r = "/" \/ Path r = "/call/" ->
  ~ (environ_loads g /\ labels_load g) ->
  exists w' g',
    primaryHandler response _ w r g = (Panic indexOutOfRange, w', g')
    /\ resp_body w' = resp_body w
    /\ logged g' = logged g.
Proof.
  intros Hp Hno. unfold primaryHandler, fixTracingHeader, getRouter.
  destruct (fixTracingHeader_request_target r) as [-> _].
  destruct (getServiceInfo_run (newService "Inspector") (set_timers g (timers g + 1)))
    as (res & g1 & Hinfo & _ & Hlogged & _ & _ & Hok & Hpanic).
  assert (exists msg, res = Panicked msg) as [msg ->].
  { destruct res as [info|msg]; [|eauto]. destruct Hno. apply Hok. eauto. }
  rewrite (Hpanic msg eq_refl) in *.
  destruct Hp as [->| ->]; simpl (String.eqb _ _); cbv iota.
  - destruct (index_chain_run (newService "Inspector") w (fixTracingHeader_request r) g)
      as (res' & g1' & Hinfo' & Hrun).
    rewrite Hinfo in Hinfo'. injection Hinfo' as <- <-.
    rewrite Hrun. eexists _, _. split; [reflexivity|]. by split.
  - destruct (call_chain_run (newService "Inspector") w (fixTracingHeader_request r) g)
      as (res' & g1' & Hinfo' & Hrun).
    rewrite Hinfo in Hinfo'. injection Hinfo' as <- <-.
    rewrite Hrun. eexists _, _. split; [reflexivity|]. by split.
Qed.

Lemma documented_endpoint_panics_without_answer_witness :
  exists w' g',
    primaryHandler (H := silent_codec) response _ response_empty (request_at "/")
      (world_with_labels ["app=inspector"; "broken"])
    = (Panic indexOutOfRange, w', g')
    /\ resp_body w' = resp_body response_empty
    /\ logged g' = logged (world_with_labels ["app=inspector"; "broken"]).
Proof.
  apply (documented_endpoint_panics_without_answer (H := silent_codec)
           (request_at "/") (world_with_labels ["app=inspector"; "broken"])
           response_empty).
  - left. reflexivity.
  - intros [_ [[labels Hc]|Hall]]; [discriminate Hc|].
    vm_compute in Hall. inversion Hall as [|? ? _ Hrest]. inversion Hrest as [|? ? Hb _].
    discriminate Hb.
Defined.

(** C10. [getServiceLabels] on a file it can open and has not cached returns
    exactly when every scanned line contains '='; a line without one makes
    [pair[1]] an out-of-range access, and the first request to [/] panics
    with it. *)
Theorem getServiceLabels_total_iff_every_line_has_equals `{Codec}
  (g : World) (lines : list string) (scanErr : option error) :
  podLabels g = None -> files g (labelsFilename g) = inr (lines, scanErr) ->
  ((exists labels, fst (getServiceLabels g) = Ok labels)
   <-> Forall has_equals lines)
  /\ (Exists line_without_equals lines ->
      fst (getServiceLabels g) = Panicked indexOutOfRange
      /\ forall (w : response) r, Path r = "/" ->
           fst (fst (primaryHandler response _ w r g)) = Panic indexOutOfRange).
Proof.
  intros Hc Hf.
  assert (labels_load g <-> Forall has_equals lines) as Hload.
  { unfold labels_load. rewrite Hc, Hf. split; [|by right].
    intros [[? ?]|?]; done. }
  destruct (getServiceLabels_run g) as (res & c & Hrun & Hok & Hpanic).
  rewrite Hrun. cbn [fst]. rewrite <- Hload, Hok. split; [done|].
  intros Hex.
  assert (~ labels_load g) as Hno.
  { rewrite Hload. intros Hall. apply Exists_exists in Hex as (text & Hin & Htext).
    rewrite Forall_forall in Hall. specialize (Hall text Hin).
    unfold has_equals, line_without_equals in *. congruence. }
  split.
  - destruct res as [labels|msg]; [destruct Hno; apply Hok; eauto|].
    by rewrite (Hpanic msg eq_refl).
  - intros w r Hp. unfold primaryHandler, fixTracingHeader, getRouter.
    destruct (fixTracingHeader_request_target r) as [-> _].
    rewrite Hp. simpl (String.eqb _ _). cbv iota.
    destruct (index_chain_run (newService "Inspector") w (fixTracingHeader_request r) g)
      as (res' & g1 & Hinfo & Hchain).
    destruct (getServiceInfo_run (newService "Inspector") (set_timers g (timers g + 1)))
      as (res'' & g1' & Hinfo' & _ & _ & _ & _ & Hok' & Hpanic').
    rewrite Hinfo in Hinfo'. injection Hinfo' as <- <-.
    destruct res' as [info|msg].
    + destruct Hno. assert (exists i, Ok info = Ok i) as Hi by eauto.
      apply Hok' in Hi as [_ Hl]. exact Hl.
    + rewrite Hchain. cbn [fst]. by rewrite (Hpanic' msg eq_refl).
Qed.

Lemma getServiceLabels_total_iff_every_line_has_equals_witness :
  ((exists labels,
      fst (getServiceLabels (world_with_labels ["app=inspector"; "broken"])) = Ok labels)
   <-> Forall has_equals ["app=inspector"; "broken"])
  /\ (Exists line_without_equals ["app=inspector"; "broken"] ->
      fst (getServiceLabels (world_with_labels ["app=inspector"; "broken"]))
      = Panicked indexOutOfRange
      /\ forall (w : response) r, Path r = "/" ->
           fst (fst (@primaryHandler silent_codec response _ w r
                       (world_with_labels ["app=inspector"; "broken"])))
           = Panic indexOutOfRange).
Proof.
  apply (@getServiceLabels_total_iff_every_line_has_equals silent_codec
           (world_with_labels ["app=inspector"; "broken"])
           ["app=inspector"; "broken"] None); reflexivity.
Defined.

(** ** The shutdown coordinator *)

Lemma first_time_snoc P tr t e :
  first_time P (tr ++ [(t, e)]) =
  match first_time P tr with
  | Some t' => Some t'
  | None => if P e then Some t else None
  end.
Proof.
  induction tr as [|[t' e'] tr IH]; simpl; [done|].
  by destruct (P e').
Qed.

Lemma stage_events_snoc tr t e :
  stage_events (tr ++ [(t, e)]) =
  (stage_events tr ++ if is_stage e then [e] else [])%list.
Proof.
  unfold stage_events. rewrite fmap_app, filter_app. f_equal.
  simpl. rewrite filter_cons. destruct (is_stage e); by case_decide.
Qed.

Lemma coherent_started dev t0 : coherent dev (started t0).
Proof.
  split; simpl; try done.
  exists None, None. done.
Qed.

Lemma option_same {A} (o : option A) :
  match o with Some a => Some a | None => None end = o.
Proof. by destruct o. Qed.

Ltac trace_simpl :=
  cbn [events record at_main at_sig at_live advance set_sigint shutting_down
       close_allConsClosed exit logger_Fatalf mainAt sigAt liveAt now sigint
       primaryShuttingDown livenessShuttingDown allConsClosed exited] in *;
  rewrite ?stage_events_snoc, ?first_time_snoc;
  cbn [is_stage is_fatal is_received is_call Z.eqb app] in *;
  rewrite ?option_same, ?app_nil_r.

(** Closes the stage equation of a successor state from the one of the
    state before. *)
Ltac stages_from Hst e1 e2 :=
  rewrite Hst, <- ?app_assoc;
  first [ by exists e1, e2
        | match goal with x : option error |- _ => by exists e1, x end
        | match goal with x : error |- _ => by exists e1, (Some x) end
        | by exists e1, None
        | match goal with x : option error |- _ => by exists x, e2 end
        | match goal with x : error |- _ => by exists (Some x), e2 end
        | by exists None, e2 ].

Lemma coherent_tick dev d p : coherent dev p -> 0 <= d -> coherent dev (advance d p).
Proof.
  intros [Hst Hcl Hpr Hlv Hmain Hsig Hex Htm] Hd.
  split; trace_simpl; try done.
  destruct (sigAt p); try done.
  destruct Htm as (Hcall & t0 & Hrecv & Hwait). split; [done|].
  exists t0. split; [done|]. intros Hdev. specialize (Hwait Hdev). lia.
Qed.

Lemma coherent_signal dev p :
  coherent dev p -> sigAt p = GWait -> coherent dev (set_sigint true p).
Proof.
  intros [Hst Hcl Hpr Hlv Hmain Hsig Hex Htm] Hwait.
  split; trace_simpl; done.
Qed.

Lemma coherent_main dev ret p p' :
  coherent dev p -> exited p = None -> step_main ret p = Some p' -> coherent dev p'.
Proof.
  intros [(e1 & e2 & Hst) Hcl Hpr Hlv Hmain Hsig Hex Htm] Hrun Hstep.
  rewrite Hrun in Hex. destruct Hex as [Hnd Hnf].
  unfold step_main in Hstep.
  destruct (mainAt p) eqn:Hm; trace_simpl.
  all: repeat match type of Hstep with
       | context [if ?b then _ else _] => destruct b eqn:?
       | context [match ?x with _ => _ end] => destruct x eqn:?
       end; simplify_eq.
  all: split; trace_simpl; rewrite ?Hm, ?Hnf, ?Hrun; trace_simpl; try done.
  all: try (destruct (sigAt p); done).
  all: try (stages_from Hst e1 e2).
  all: try (right; done).
  left. done.
Qed.

Lemma coherent_live dev ret p p' :
  coherent dev p -> exited p = None -> step_live ret p = Some p' -> coherent dev p'.
Proof.
  intros [(e1 & e2 & Hst) Hcl Hpr Hlv Hmain Hsig Hex Htm] Hrun Hstep.
  rewrite Hrun in Hex. destruct Hex as [Hnd Hnf].
  unfold step_live in Hstep.
  destruct (liveAt p) eqn:Hl; trace_simpl.
  all: repeat match type of Hstep with
       | context [if ?b then _ else _] => destruct b eqn:?
       | context [match ?x with _ => _ end] => destruct x eqn:?
       end; simplify_eq.
  all: split; trace_simpl; rewrite ?Hnf, ?Hrun; trace_simpl; try done.
  all: try (stages_from Hst e1 e2).
  all: try (right; done).
  all: congruence.
Qed.

Lemma coherent_sig dev ret p p' :
  coherent dev p -> exited p = None -> step_sig dev ret p = Some p' -> coherent dev p'.
Proof.
  intros [(e1 & e2 & Hst) Hcl Hpr Hlv Hmain Hsig Hex Htm] Hrun Hstep.
  rewrite Hrun in Hex. destruct Hex as [Hnd Hnf].
  assert (sigAt p <> GDone -> forall e, main_stages (mainAt p) e = []) as Hearly.
  { intros Hne e. destruct (mainAt p); try done; by destruct Hne; apply Hmain. }
  unfold step_sig in Hstep.
  destruct (sigAt p) eqn:Hs; trace_simpl.
  all: repeat match type of Hstep with
       | context [if ?b then _ else _] => destruct b eqn:?
       | context [match ?x with _ => _ end] => destruct x eqn:?
       end; simplify_eq.
  all: rewrite Hearly in Hst by done; rewrite app_nil_r in Hst.
  all: split; trace_simpl; rewrite ?Hnf, ?Hrun; trace_simpl; try done.
  all: try (intros Hlate%Hmain; congruence).
  all: try (intros Hpending%Hsig; congruence).
  all: try (rewrite Hst;
            let close x :=
              (exists x, e2; rewrite Hearly by done;
               rewrite ?app_nil_r, <- ?app_assoc; by destruct dev) in
            first [ close e1 | close ret | close (@None error)
                  | match goal with x : error |- _ => close (Some x) end ]).
  - destruct Htm as [Hrecv Hcall]. rewrite Hrecv.
    destruct dev; [done|]. split; [done|]. split; [done|]. by exists (now p).
  - destruct Htm as [Hrecv Hcall]. rewrite Hrecv.
    split; [done|]. exists (now p). split; [done|].
    intros ->. discriminate.
  - destruct Htm as (-> & _). rewrite Hst. exists e1, e2.
    rewrite Hearly by done. by rewrite app_nil_r.
  - destruct Htm as (Hdev & Hcall & t0 & Hrecv & ->).
    split; [done|]. exists t0. split; [done|]. intros _. lia.
  - destruct Htm as (Hcall & t0 & Hrecv & Hle). rewrite Hcall.
    by exists t0, (now p).
Qed.

Lemma coherent_step g a p p' :
  coherent (IsDevelopment g) p -> step g a p = Some p' ->
  coherent (IsDevelopment g) p'.
Proof.
  intros Hco Hstep. unfold step in Hstep.
  destruct (exited p) eqn:Hrun; [done|].
  destruct a as [d| |[| |] ret].
  - destruct (Z.leb_spec 0 d); [|done]. injection Hstep as <-.
    by apply coherent_tick.
  - destruct (sigAt p) eqn:Hs; try done.
    destruct (sigint p); [done|]. injection Hstep as <-.
    by apply coherent_signal.
  - by apply (coherent_main _ ret p).
  - by apply (coherent_sig _ ret p).
  - by apply (coherent_live _ ret p).
Qed.

Lemma coherent_run g acts p p' :
  coherent (IsDevelopment g) p -> run g acts p = Some p' ->
  coherent (IsDevelopment g) p'.
Proof.
  revert p. induction acts as [|a acts IH]; intros p Hco; simpl.
  - by intros [= <-].
  - destruct (step g a p) as [p1|] eqn:Hstep; [|done].
    apply IH. by apply (coherent_step g a p).
Qed.

Lemma run_app g acts1 acts2 p :
  run g (acts1 ++ acts2) p =
  match run g acts1 p with
  | Some p1 => run g acts2 p1
  | None => None
  end.
Proof.
  revert p. induction acts1 as [|a acts1 IH]; intros p; simpl; [done|].
  destruct (step g a p); [apply IH|done].
Qed.

(** A coherent state has its stages in the one possible order. *)
Lemma coherent_stages_prefix dev p :
  coherent dev p ->
  exists e1 e2, stage_events (events p) `prefix_of` shutdown_stages dev e1 e2.
Proof.
  intros [(e1 & e2 & Hst) _ _ _ Hmain _ _ _]. rewrite Hst. clear Hst.
  unfold prefix, shutdown_stages.
  destruct (sigAt p) as [|wake| | |e|] eqn:Hs;
    destruct (mainAt p) as [| | | | |e'| |] eqn:Hm;
    try (by specialize (Hmain eq_refl)).
  all: try (exists e, e2; destruct dev, e; simpl; eexists; reflexivity).
  all: try (exists e1, e'; destruct dev, e1, e'; simpl; eexists; reflexivity).
  all: exists e1, e2; destruct dev, e1, e2; simpl; eexists; reflexivity.
Qed.

Lemma coherent_exit_complete dev p :
  coherent dev p -> exited p = Some 0 ->
  exists e1 e2, stage_events (events p) = shutdown_stages dev e1 e2.
Proof.
  intros [(e1 & e2 & Hst) _ _ _ Hmain _ Hex _] Hexit. rewrite Hexit in Hex.
  destruct Hex as [(_ & Hm & _)|[? _]]; [|done].
  rewrite Hm in *. rewrite (Hmain eq_refl) in Hst.
  exists e1, e2. rewrite Hst. by destruct dev, e1, e2.
Qed.

Lemma coherent_delay dev p tc :
  coherent dev p -> dev = false ->
  first_time (is_call Primary) (events p) = Some tc ->
  exists tr, first_time is_received (events p) = Some tr /\ tr + 10 * second <= tc.
Proof.
  intros [_ _ _ _ _ _ _ Htm] Hdev Hcall.
  destruct (sigAt p).
  - destruct Htm as [_ Hnone]. congruence.
  - destruct Htm as (_ & Hnone & _). congruence.
  - destruct Htm as (Hnone & _). congruence.
  - destruct Htm as (t0 & t1 & Hrecv & Hc & Hle). exists t0. split; [done|].
    rewrite Hcall in Hc. injection Hc as <-. by apply Hle.
  - destruct Htm as (t0 & t1 & Hrecv & Hc & Hle). exists t0. split; [done|].
    rewrite Hcall in Hc. injection Hc as <-. by apply Hle.
  - destruct Htm as (t0 & t1 & Hrecv & Hc & Hle). exists t0. split; [done|].
    rewrite Hcall in Hc. injection Hc as <-. by apply Hle.
Qed.

(** C2. In every run of the process the stages occur in one order: the
    signal is received, in non-development mode ten seconds are slept, the
    primary server's [Shutdown] is called with a 20 second bound and returns,
    [allConsClosed] is closed, the liveness server's [Shutdown] is called with
    a 5 second bound and returns, and [main] returns; the primary call is made
    no earlier than ten seconds after the signal was received.  (The fatal
    exit of a listener that fails to start is not a stage.) *)
Theorem shutdown_stages_sequential
  (g : World) (t0 : Z) (acts : list action) (p : proc) :
  run g acts (started t0) = Some p ->
  (exists e1 e2,
     stage_events (events p) `prefix_of` shutdown_stages (IsDevelopment g) e1 e2)
  /\ (exited p = Some 0 ->
      exists e1 e2, stage_events (events p) = shutdown_stages (IsDevelopment g) e1 e2)
  /\ (IsDevelopment g = false -> forall tc,
        first_time (is_call Primary) (events p) = Some tc ->
        exists tr, first_time is_received (events p) = Some tr
                   /\ tr + 10 * second <= tc).
Proof.
  intros Hrun.
  pose proof (coherent_run g acts _ _ (coherent_started (IsDevelopment g) t0) Hrun)
    as Hco.
  split; [by apply (coherent_stages_prefix (IsDevelopment g))|].
  split; [by apply (coherent_exit_complete (IsDevelopment g))|].
  intros Hdev tc. by apply (coherent_delay (IsDevelopment g)).
Qed.

Lemma shutdown_stages_sequential_witness :
  (exists e1 e2,
     stage_events (events sample_final)
     `prefix_of` shutdown_stages (IsDevelopment sample_world) e1 e2)
  /\ (exited sample_final = Some 0 ->
      exists e1 e2,
        stage_events (events sample_final)
        = shutdown_stages (IsDevelopment sample_world) e1 e2)
  /\ (IsDevelopment sample_world = false -> forall tc,
        first_time (is_call Primary) (events sample_final) = Some tc ->
        exists tr, first_time is_received (events sample_final) = Some tr
                   /\ tr + 10 * second <= tc).
Proof.
  apply (shutdown_stages_sequential sample_world 0 sample_run sample_final).
  vm_compute. reflexivity.
Defined.

(** *** Neither call is made twice *)

Lemma filter_stage_events (P : event -> bool) tr :
  (forall e, P e = true -> is_stage e = true) ->
  filter (fun e => P e = true) (snd <$> tr)
  = filter (fun e => P e = true) (stage_events tr).
Proof.
  intros HP. unfold stage_events.
  induction (snd <$> tr) as [|e l IH]; [done|].
  rewrite !filter_cons. destruct (P e) eqn:He.
  - rewrite (HP e He). repeat case_decide; try done.
    rewrite filter_cons, He. case_decide; [|done]. by rewrite IH.
  - case_decide; [done|]. case_decide; [|done].
    rewrite filter_cons, He. by case_decide.
Qed.

Lemma is_call_stage srv e : is_call srv e = true -> is_stage e = true.
Proof. by destruct e, srv. Qed.

Lemma count_call_stages srv dev e1 e2 :
  length (filter (fun e => is_call srv e = true) (shutdown_stages dev e1 e2)) = 1%nat.
Proof. by destruct srv, dev, e1, e2. Qed.

Lemma coherent_called_once dev p srv :
  coherent dev p -> (count_event (is_call srv) (events p) <= 1)%nat.
Proof.
  intros Hco. destruct (coherent_stages_prefix dev p Hco) as (e1 & e2 & k & Hk).
  unfold count_event. rewrite (filter_stage_events _ _ (is_call_stage srv)).
  pose proof (count_call_stages srv dev e1 e2) as Hone.
  rewrite Hk, filter_app, length_app in Hone. lia.
Qed.

(** *** The sequence completes *)

Lemma sig_runs_step g a rest p p' :
  step g a p = Some p' -> mainAt p' = mainAt p ->
  sig_runs g rest p' -> sig_runs g (a :: rest) p.
Proof.
  intros Hstep Hm (p1 & Hrun & Hex & Hs & Hm1). exists p1.
  simpl. rewrite Hstep. repeat split; try done. congruence.
Qed.

Lemma step_sig_run g ret p :
  exited p = None -> step g (Run Sig ret) p = step_sig (IsDevelopment g) ret p.
Proof. intros Hrun. unfold step. by rewrite Hrun. Qed.

Lemma step_main_run g ret p :
  exited p = None -> step g (Run Main ret) p = step_main ret p.
Proof. intros Hrun. unfold step. by rewrite Hrun. Qed.

Lemma sig_runs_done g p :
  exited p = None -> sigAt p = GDone -> sig_runs g [] p.
Proof. intros Hrun Hs. by exists p. Qed.

Lemma sig_runs_returned g e p :
  exited p = None -> sigAt p = GReturned e -> sig_runs g [Run Sig None] p.
Proof.
  intros Hrun Hs. eapply sig_runs_step.
  - rewrite step_sig_run by done. unfold step_sig. rewrite Hs. reflexivity.
  - by destruct e.
  - apply sig_runs_done; by destruct e.
Qed.

Lemma sig_runs_blocked g e1 p :
  exited p = None -> sigAt p = GBlocked -> sig_runs g [Run Sig e1; Run Sig None] p.
Proof.
  intros Hrun Hs. eapply sig_runs_step.
  - rewrite step_sig_run by done. unfold step_sig. rewrite Hs. reflexivity.
  - done.
  - by apply (sig_runs_returned g e1).
Qed.

Lemma sig_runs_shutdown g e1 p :
  exited p = None -> sigAt p = GShutdown ->
  sig_runs g [Run Sig None; Run Sig e1; Run Sig None] p.
Proof.
  intros Hrun Hs. eapply sig_runs_step.
  - rewrite step_sig_run by done. unfold step_sig. rewrite Hs. reflexivity.
  - done.
  - by apply sig_runs_blocked.
Qed.

Lemma sig_runs_sleep g e1 wake d p :
  exited p = None -> sigAt p = GSleep wake -> 0 <= d -> wake <= now p + d ->
  sig_runs g [Tick d; Run Sig None; Run Sig None; Run Sig e1; Run Sig None] p.
Proof.
  intros Hrun Hs Hd Hwake. eapply sig_runs_step.
  - unfold step. rewrite Hrun. destruct (Z.leb_spec 0 d); [reflexivity|lia].
  - done.
  - eapply sig_runs_step.
    + rewrite step_sig_run by done. unfold step_sig.
      cbn [sigAt advance now]. rewrite Hs.
      destruct (Z.leb_spec wake (now p + d)); [reflexivity|lia].
    + done.
    + by apply sig_runs_shutdown.
Qed.

Lemma finish_sig_runs g e1 p :
  exited p = None -> sigAt p <> GWait \/ sigint p = true ->
  sig_runs g (finish_sig (IsDevelopment g) e1 p) p.
Proof.
  intros Hrun Hsignal. unfold finish_sig.
  destruct (sigAt p) as [|wake| | |e|] eqn:Hs.
  - destruct Hsignal as [?|Hsi]; [done|].
    destruct (IsDevelopment g) eqn:Hdev; cbn [app].
    + eapply sig_runs_step.
      * rewrite step_sig_run by done. unfold step_sig. rewrite Hs, Hsi, Hdev.
        reflexivity.
      * done.
      * by apply sig_runs_shutdown.
    + eapply sig_runs_step.
      * rewrite step_sig_run by done. unfold step_sig. rewrite Hs, Hsi, Hdev.
        reflexivity.
      * done.
      * eapply sig_runs_sleep; [done|reflexivity| |].
        -- by vm_compute.
        -- cbn [now at_sig record set_sigint]. lia.
  - apply (sig_runs_sleep g e1 wake); [done|done|lia|lia].
  - by apply sig_runs_shutdown.
  - by apply sig_runs_blocked.
  - by apply (sig_runs_returned g e).
  - by apply sig_runs_done.
Qed.

Lemma main_runs_step g a rest p p' :
  step g a p = Some p' -> main_runs g rest p' -> main_runs g (a :: rest) p.
Proof.
  intros Hstep (p1 & Hrun & Hex). exists p1. simpl. by rewrite Hstep.
Qed.

Lemma main_runs_sync g p :
  exited p = None -> mainAt p = MSync -> main_runs g [Run Main None] p.
Proof.
  intros Hrun Hm. exists (at_main MDone (exit 0 p)). split; [|done].
  simpl. rewrite step_main_run by done. unfold step_main. by rewrite Hm.
Qed.

Lemma main_runs_returned g e p :
  exited p = None -> mainAt p = MLiveReturned e ->
  main_runs g [Run Main None; Run Main None] p.
Proof.
  intros Hrun Hm. eapply main_runs_step.
  - rewrite step_main_run by done. unfold step_main. rewrite Hm. reflexivity.
  - by apply main_runs_sync.
Qed.

Lemma main_runs_blocked g e2 p :
  exited p = None -> mainAt p = MLiveBlocked ->
  main_runs g [Run Main e2; Run Main None; Run Main None] p.
Proof.
  intros Hrun Hm. eapply main_runs_step.
  - rewrite step_main_run by done. unfold step_main. rewrite Hm. reflexivity.
  - by apply (main_runs_returned g e2).
Qed.

Lemma main_runs_call g e2 p :
  exited p = None -> mainAt p = MLiveCall ->
  main_runs g [Run Main None; Run Main e2; Run Main None; Run Main None] p.
Proof.
  intros Hrun Hm. eapply main_runs_step.
  - rewrite step_main_run by done. unfold step_main. rewrite Hm. reflexivity.
  - by apply main_runs_blocked.
Qed.

Lemma main_runs_wait g e2 p :
  exited p = None -> mainAt p = MWait -> allConsClosed p = true ->
  main_runs g [Run Main None; Run Main None; Run Main e2; Run Main None; Run Main None] p.
Proof.
  intros Hrun Hm Hc. eapply main_runs_step.
  - rewrite step_main_run by done. unfold step_main. rewrite Hm, Hc. reflexivity.
  - by apply main_runs_call.
Qed.

Lemma finish_main_runs g e2 p :
  coherent (IsDevelopment g) p -> exited p = None -> sigAt p = GDone ->
  main_runs g (finish_main e2 p) p.
Proof.
  intros [_ Hcl Hpr _ _ _ Hex _] Hrun Hs.
  rewrite Hs in Hcl, Hpr. cbn in Hpr. rewrite Hrun in Hex. destruct Hex as [Hnd _].
  unfold finish_main. destruct (mainAt p) as [| | | | |e| |] eqn:Hm.
  - eapply main_runs_step.
    + rewrite step_main_run by done. unfold step_main. rewrite Hm.
      cbn [primaryShuttingDown record]. rewrite Hpr. reflexivity.
    + by apply main_runs_wait.
  - eapply main_runs_step.
    + rewrite step_main_run by done. unfold step_main. rewrite Hm, Hpr. reflexivity.
    + by apply main_runs_wait.
  - by apply main_runs_wait.
  - by apply main_runs_call.
  - by apply main_runs_blocked.
  - by apply (main_runs_returned g e).
  - by apply main_runs_sync.
  - done.
Qed.

Lemma finish_runs g e1 e2 p :
  coherent (IsDevelopment g) p -> exited p = None ->
  sigAt p <> GWait \/ sigint p = true ->
  main_runs g (finish (IsDevelopment g) e1 e2 p) p.
Proof.
  intros Hco Hrun Hsignal.
  destruct (finish_sig_runs g e1 p Hrun Hsignal) as (p1 & Hrun1 & Hex1 & Hs1 & Hm1).
  pose proof (coherent_run g _ _ _ Hco Hrun1) as Hco1.
  destruct (finish_main_runs g e2 p1 Hco1 Hex1 Hs1) as (p' & Hrun2 & Hex2).
  exists p'. split; [|done].
  unfold finish. rewrite run_app, Hrun1.
  unfold finish_main in *. by rewrite <- Hm1.
Qed.

(** *** No goroutine goes round in circles *)

Lemma step_decreases g t ret p p' :
  step g (Run t ret) p = Some p' -> (remaining p' < remaining p)%nat.
Proof.
  unfold step, remaining. destruct (exited p) eqn:Hrun; [done|].
  destruct t; unfold step_main, step_sig, step_live.
  - destruct (mainAt p); intros Hstep; repeat case_match; simplify_eq;
      cbn [mainAt sigAt liveAt exited at_main exit logger_Fatalf record
           shutting_down main_left] in *; simplify_eq; lia.
  - destruct (sigAt p); intros Hstep; repeat case_match; simplify_eq;
      cbn [mainAt sigAt liveAt exited at_sig record shutting_down
           close_allConsClosed set_sigint sig_left] in *; simplify_eq; lia.
  - destruct (liveAt p); intros Hstep; repeat case_match; simplify_eq;
      cbn [mainAt sigAt liveAt exited at_live exit logger_Fatalf record
           live_left] in *; simplify_eq; lia.
Qed.

(** *** Errors of the shutdown calls *)

Lemma occurs_stage e tr :
  is_stage e = true -> (occurs e tr <-> In e (stage_events tr)).
Proof.
  intros He. unfold occurs, stage_events.
  rewrite <- list_elem_of_In, list_elem_of_filter, list_elem_of_fmap.
  split.
  - intros [t Hin]. split; [done|]. exists (t, e). by rewrite list_elem_of_In.
  - intros [_ ([t e'] & -> & Hin)]. exists t. by rewrite <- list_elem_of_In.
Qed.

Lemma shutdown_error_in_stages dev e1 e2 srv e :
  In (ShutdownReturned srv (Some e)) (shutdown_stages dev e1 e2) ->
  In (shutdown_error_logged srv e) (shutdown_stages dev e1 e2).
Proof.
  unfold shutdown_stages, shutdown_error_logged.
  destruct dev, e1 as [x1|], e2 as [x2|], srv; simpl; intros Hin;
    repeat (destruct Hin as [Hin|Hin]; [simplify_eq; tauto|]); done.
Qed.

Lemma coherent_errors_logged dev p srv e :
  coherent dev p -> exited p = Some 0 ->
  occurs (ShutdownReturned srv (Some e)) (events p) ->
  occurs (shutdown_error_logged srv e) (events p).
Proof.
  intros Hco Hexit.
  destruct (coherent_exit_complete dev p Hco Hexit) as (e1 & e2 & Hst).
  rewrite !occurs_stage by done. rewrite Hst.
  apply shutdown_error_in_stages.
Qed.

Lemma coherent_failure_is_fatal dev p code :
  coherent dev p -> exited p = Some code -> code <> 0 ->
  first_time is_fatal (events p) <> None.
Proof.
  intros [_ _ _ _ _ _ Hex _] Hexit Hcode. rewrite Hexit in Hex.
  by destruct Hex as [(? & _)|(_ & ?)].
Qed.

(** C8. In every run each shutdown call is made at most once; an error it
    returns is followed by its [Errorf] line, and by the time [main] returns
    every such error has been logged; from every state in which the signal
    has arrived and the process still runs, whatever the calls still to
    return will return, a schedule leads to the return of [main] with exit
    code 0; every step of a goroutine brings it nearer to its end, so nothing
    is tried again; and a nonzero exit code comes only with the [Fatalf] of a
    listener that failed to start. *)
Theorem shutdown_errors_logged_not_fatal
  (g : World) (t0 : Z) (acts : list action) (p : proc) :
  run g acts (started t0) = Some p ->
  (forall srv, (count_event (is_call srv) (events p) <= 1)%nat)
  /\ (exists e1 e2,
        stage_events (events p) `prefix_of` shutdown_stages (IsDevelopment g) e1 e2)
  /\ (exited p = Some 0 -> forall srv e,
        occurs (ShutdownReturned srv (Some e)) (events p) ->
        occurs (shutdown_error_logged srv e) (events p))
  /\ (exited p = None -> sigAt p <> GWait \/ sigint p = true ->
      forall e1 e2, main_runs g (finish (IsDevelopment g) e1 e2 p) p)
  /\ (forall t ret p', step g (Run t ret) p = Some p' ->
        (remaining p' < remaining p)%nat)
  /\ (forall code, exited p = Some code -> code <> 0 ->
        first_time is_fatal (events p) <> None).
Proof.
  intros Hrun.
  pose proof (coherent_run g acts _ _ (coherent_started (IsDevelopment g) t0) Hrun)
    as Hco.
  split; [intros srv; by apply (coherent_called_once (IsDevelopment g))|].
  split; [by apply (coherent_stages_prefix (IsDevelopment g))|].
  split; [intros Hexit srv e; by apply (coherent_errors_logged (IsDevelopment g))|].
  split; [intros Hnone Hsignal e1 e2; by apply finish_runs|].
  split; [intros t ret p'; apply step_decreases|].
  intros code. by apply (coherent_failure_is_fatal (IsDevelopment g)).
Qed.

Lemma shutdown_errors_logged_not_fatal_witness :
  (forall srv, (count_event (is_call srv) (events sample_final) <= 1)%nat)
  /\ (exists e1 e2,
        stage_events (events sample_final)
        `prefix_of` shutdown_stages (IsDevelopment sample_world) e1 e2)
  /\ (exited sample_final = Some 0 -> forall srv e,
        occurs (ShutdownReturned srv (Some e)) (events sample_final) ->
        occurs (shutdown_error_logged srv e) (events sample_final))
  /\ (exited sample_final = None ->
      sigAt sample_final <> GWait \/ sigint sample_final = true ->
      forall e1 e2,
        main_runs sample_world
          (finish (IsDevelopment sample_world) e1 e2 sample_final) sample_final)
  /\ (forall t ret p', step sample_world (Run t ret) sample_final = Some p' ->
        (remaining p' < remaining sample_final)%nat)
  /\ (forall code, exited sample_final = Some code -> code <> 0 ->
        first_time is_fatal (events sample_final) <> None).
Proof.
  apply (shutdown_errors_logged_not_fatal sample_world 0 sample_run sample_final).
  vm_compute. reflexivity.
Defined.

(** The sample run: the primary call times out, the line is logged, the
    liveness server is shut down and [main] returns. *)
Example sample_run_stages :
  exited sample_final = Some 0
  /\ stage_events (events sample_final)
     = shutdown_stages false (Some (Err "context deadline exceeded")) None.
Proof. split; reflexivity. Qed.

(** * Further properties of the code *)

(** ** The access logger around a handler *)

Lemma exec_statusWriter {W} `{ResponseWriter W}
  (p : program) (w : W) (st len : Z) (g : World) :
  exists st' len',
    exec p (statusWriter.mk w st len) g
    = (fst (fst (exec p w g)),
       statusWriter.mk (snd (fst (exec p w g))) st' len',
       snd (exec p w g)).
Proof.
  revert w st len g.
  induction p as [o|key value k IH|status k IH|b k IH|f k IH]; intros w st len g;
    cbn [exec].
  - by exists st, len.
  - apply IH.
  - apply IH.
  - cbn [rw_Write statusWriter_ResponseWriter]. unfold statusWriter_Write.
    cbn [statusWriter.inner statusWriter.status statusWriter.length].
    destruct (rw_Write b w) as [w' [n err]]. apply IH.
  - apply IH.
Qed.

(** Wrapping a handler in [logHTTPRequest] changes nothing the client or the
    handler can see, for every handler that reaches the writer through the
    three methods of [http.ResponseWriter] (the recorder does not pass on
    [http.Flusher], [http.Hijacker] and the like): whatever the handler reads
    and changes in the world, the calls it makes reach the underlying writer
    unchanged and get the same results.  A handler that returns leaves the
    same writer and the same world but for one access line, which carries the
    request's address, method, URL and protocol; a handler that panics
    panics as before, and nothing is logged. *)
Theorem access_logging_is_transparent {W} `{ResponseWriter W}
  (p : Request -> program) (w : W) (r : Request) (g : World) :
  match fst (fst (programmed p W _ w r g)) with
  | Done =>
      exists l,
        logHTTPRequest (programmed p) W _ w r g
        = (Done, snd (fst (programmed p W _ w r g)),
           emit (Access l) (snd (programmed p W _ w r g)))
        /\ al_remote l = RemoteAddr r /\ al_method l = Method r
        /\ al_url l = URL r /\ al_proto l = Proto r
  | Panic msg =>
      logHTTPRequest (programmed p) W _ w r g = programmed p W _ w r g
  end.
Proof.
  unfold logHTTPRequest, programmed.
  destruct (exec_statusWriter (p r) w 0 0 g) as (st' & len' & ->).
  destruct (exec (p r) w g) as [[[|msg] w'] g']; cbn [fst snd statusWriter.inner].
  - eexists. split; [reflexivity|done].
  - done.
Qed.

(** A handler that writes a body without ever setting a status is logged
    with 200, the status net/http sends for it. *)
Theorem first_write_logs_200 {W} `{ResponseWriter W}
  (s : Request -> script) (w : W) (r : Request) (g : World) :
  explicit_statuses (calls (s r) w) = [] -> has_write (calls (s r) w) = true ->
  exists l, access_line_of s w r g = Some l /\ al_status l = StatusOK.
Proof.
  intros Hex Hw.
  destruct (access_line_of_scripted s w r g) as (l & Hl & Hst & _).
  exists l. split; [done|]. rewrite Hst. by apply status_after_default.
Qed.

Lemma first_write_logs_200_witness :
  exists l, access_line_of writes_three_bytes response_empty sample_request sample_world
            = Some l /\ al_status l = StatusOK.
Proof.
  apply (first_write_logs_200 writes_three_bytes response_empty
           sample_request sample_world); reflexivity.
Defined.

(** The last number of the access line is the time the wrapped handler took,
    in whole milliseconds, rounded down. *)
Theorem logged_duration_is_whole_milliseconds {W} `{ResponseWriter W}
  (h : Handler) (w : W) (r : Request) (g g' : World) (sw' : statusWriter.t W) :
  h (statusWriter.t W) _ (statusWriter.mk w 0 0) r g = (Done, sw', g') ->
  0 <= clock g' - clock g < 2 ^ 63 ->
  exists l, last_access (snd (logHTTPRequest h W _ w r g)) = Some l
    /\ al_millis l = (clock g' - clock g) / 1000000
    /\ al_millis l * 1000000 <= clock g' - clock g < (al_millis l + 1) * 1000000.
Proof.
  intros Hh Helapsed. unfold logHTTPRequest. rewrite Hh. cbn [snd].
  rewrite last_access_emit. eexists. split; [reflexivity|]. cbn [al_millis].
  unfold durationInMilliSeconds. rewrite wrap64_small by lia.
  change (Z.quot 1000000 1) with 1000000.
  rewrite Z.quot_div_nonneg by lia.
  split; [done|].
  pose proof (Z.div_mod (clock g' - clock g) 1000000 ltac:(lia)).
  pose proof (Z.mod_pos_bound (clock g' - clock g) 1000000 ltac:(lia)). lia.
Qed.

Lemma logged_duration_is_whole_milliseconds_witness :
  exists l,
    last_access (snd (logHTTPRequest (dawdle 1500999) response _ response_empty
                        sample_request sample_world)) = Some l
    /\ al_millis l = (1500999 - 0) / 1000000
    /\ al_millis l * 1000000 <= 1500999 - 0 < (al_millis l + 1) * 1000000.
Proof.
  apply (logged_duration_is_whole_milliseconds (dawdle 1500999) response_empty
           sample_request sample_world
           (set_clock sample_world 1500999) (statusWriter.mk response_empty 0 0));
    [reflexivity | vm_compute; split; [discriminate | reflexivity]].
Defined.

(** ** The trace header normaliser, as a whole *)

Lemma index_byte_found c s :
  has_byte c s = true ->
  exists t u, s = t +:+ String c u /\ has_byte c t = false.
Proof.
  induction s as [|b s IH]; [done|]. cbn [has_byte].
  destruct (Ascii.eqb c b) eqn:Hb.
  - intros _. apply Ascii.eqb_eq in Hb as ->. by exists EmptyString, s.
  - cbn [orb]. intros (t & u & -> & Ht)%IH.
    exists (String b t), u. cbn [has_byte]. by rewrite Hb, Ht.
Qed.

(** The span the normaliser writes back. *)
Lemma fixTracingHeader_request_cases r :
  fixTracingHeader_request r = r
  \/ exists trace span flags,
       trace_header r = trace +:+ "/" +:+ span +:+ ";" +:+ flags
       /\ has_byte "/" trace = false /\ has_byte ";" span = false
       /\ fixTracingHeader_request r =
          WithHeader r
            (Header_Set (ReqHeader r) httpHeader
               (trace +:+ "/" +:+
                match ParseUint span 10 64 with
                | (_, None) => span
                | (_, Some _) =>
                    match ParseUint span 16 64 with
                    | (n, None) => FormatUint10 (uint64 (uint32 n))
                    | (_, Some _) => span
                    end
                end +:+ ";" +:+ flags)).
Proof.
  destruct (has_byte "/" (trace_header r)) eqn:Hslash.
  2:{ left. by apply fixTracingHeader_request_no_slash. }
  destruct (index_byte_found _ _ Hslash) as (trace & rest & Hh & Ht).
  destruct (has_byte ";" rest) eqn:Hsemi.
  2:{ left. by apply (fixTracingHeader_request_no_semicolon r trace rest). }
  destruct (index_byte_found _ _ Hsemi) as (span & flags & -> & Hs).
  right. exists trace, span, flags. split; [done|]. split; [done|]. split; [done|].
  by apply fixTracingHeader_request_segments.
Qed.

Lemma FormatUint10_has_no_semicolon n : 0 <= n -> has_byte ";" (FormatUint10 n) = false.
Proof.
  intros Hn. pose proof (FormatUint10_numeral n Hn) as Hnum.
  unfold numeral in Hnum. destruct (FormatUint10 n) as [|c s] eqn:Hf; [done|].
  by apply (digits_value_has_no _ 10 0 _ n).
Qed.

Lemma uint32_range n : 0 <= uint64 (uint32 n) <= maxUint64.
Proof.
  unfold uint64, uint32, maxUint64.
  pose proof (Z.mod_pos_bound n (2 ^ 32) ltac:(lia)).
  rewrite (Z.mod_small (n mod 2 ^ 32)); lia.
Qed.

(** What the normaliser writes back is a span it would leave alone. *)
Lemma normalised_span_is_stable span :
  let span' :=
    match ParseUint span 10 64 with
    | (_, None) => span
    | (_, Some _) =>
        match ParseUint span 16 64 with
        | (n, None) => FormatUint10 (uint64 (uint32 n))
        | (_, Some _) => span
        end
    end in
  (has_byte ";" span = false -> has_byte ";" span' = false)
  /\ match ParseUint span' 10 64 with
     | (_, None) => span'
     | (_, Some _) =>
         match ParseUint span' 16 64 with
         | (n, None) => FormatUint10 (uint64 (uint32 n))
         | (_, Some _) => span'
         end
     end = span'.
Proof.
  destruct (ParseUint span 10 64) as [v10 [e10|]] eqn:H10; cbn zeta.
  - destruct (ParseUint span 16 64) as [n [e16|]] eqn:H16.
    + split; [done|]. by rewrite H10, H16.
    + pose proof (uint32_range n) as Hr.
      split; [intros _; apply FormatUint10_has_no_semicolon; lia|].
      by rewrite (FormatUint10_parses _ Hr).
  - split; [done|]. by rewrite H10.
Qed.

(** Normalising twice is normalising once: a request that went through
    [fixTracingHeader] is left alone by a second pass. *)
Theorem fixTracingHeader_request_idempotent (r : Request) :
  fixTracingHeader_request (fixTracingHeader_request r) = fixTracingHeader_request r.
Proof.
  destruct (fixTracingHeader_request_cases r)
    as [Hsame|(trace & span & flags & Hh & Ht & Hs & Hfix)]; [by rewrite !Hsame|].
  destruct (normalised_span_is_stable span) as [Hsemi Hstable].
  rewrite Hfix.
  match goal with |- context [Header_Set _ _ (trace +:+ "/" +:+ ?sp +:+ ";" +:+ flags)] =>
    set (span' := sp) in * end.
  rewrite (fixTracingHeader_request_segments _ trace span' flags);
    [|unfold trace_header; cbn [ReqHeader WithHeader]; apply Header_Get_Set
     |done|by apply Hsemi].
  rewrite Hstable. unfold WithHeader, Header_Set. cbn.
  by rewrite insert_insert_eq.
Qed.

(** After the normaliser a span between the two separators parses as a
    base-10 unsigned 64-bit integer, unless it parsed in neither base (then it
    is forwarded as it came). *)
Theorem normalised_span_parses_decimal (r : Request) (trace span flags : string) :
  trace_header r = trace +:+ "/" +:+ span +:+ ";" +:+ flags ->
  has_byte "/" trace = false -> has_byte ";" span = false ->
  exists span',
    trace_header (fixTracingHeader_request r) = trace +:+ "/" +:+ span' +:+ ";" +:+ flags
    /\ (snd (ParseUint span' 10 64) = None
        \/ (span' = span /\ snd (ParseUint span 10 64) <> None
            /\ snd (ParseUint span 16 64) <> None)).
Proof.
  intros Hh Ht Hs.
  rewrite (fixTracingHeader_request_segments r trace span flags Hh Ht Hs).
  unfold trace_header at 1. cbn [ReqHeader WithHeader]. rewrite Header_Get_Set.
  destruct (ParseUint span 10 64) as [v10 [e10|]] eqn:H10.
  - destruct (ParseUint span 16 64) as [n [e16|]] eqn:H16.
    + exists span. split; [done|]. by right.
    + eexists. split; [reflexivity|]. left.
      by rewrite (FormatUint10_parses _ (uint32_range n)).
  - exists span. split; [done|]. left. by rewrite H10.
Qed.

Lemma normalised_span_parses_decimal_witness :
  exists span',
    trace_header (fixTracingHeader_request (request_with_trace "abc/1f;o=1"))
    = "abc" +:+ "/" +:+ span' +:+ ";" +:+ "o=1"
    /\ (snd (ParseUint span' 10 64) = None
        \/ (span' = "1f" /\ snd (ParseUint "1f" 10 64) <> None
            /\ snd (ParseUint "1f" 16 64) <> None)).
Proof.
  apply (normalised_span_parses_decimal (request_with_trace "abc/1f;o=1")
           "abc" "1f" "o=1"); reflexivity.
Defined.

(** The normaliser touches the trace header and nothing else: the request
    line, the query, the address, the context and every other header are
    those of the inbound request. *)
Theorem fixTracingHeader_request_touches_one_header (r : Request) :
  Method (fixTracingHeader_request r) = Method r
  /\ URL (fixTracingHeader_request r) = URL r
  /\ Path (fixTracingHeader_request r) = Path r
  /\ Query (fixTracingHeader_request r) = Query r
  /\ Proto (fixTracingHeader_request r) = Proto r
  /\ RemoteAddr (fixTracingHeader_request r) = RemoteAddr r
  /\ Host (fixTracingHeader_request r) = Host r
  /\ ctx (fixTracingHeader_request r) = ctx r
  /\ (forall key, key <> httpHeader ->
        ReqHeader (fixTracingHeader_request r) !! key = ReqHeader r !! key).
Proof.
  destruct (fixTracingHeader_request_cases r)
    as [->|(trace & span & flags & _ & _ & _ & ->)]; [done|].
  cbn [Method URL Path Query Proto RemoteAddr Host ctx ReqHeader WithHeader].
  repeat (split; [done|]).
  intros key Hkey. unfold Header_Set. by rewrite lookup_insert_ne.
Qed.

(** ** [strings.Split] and [strings.ReplaceAll] on one byte *)

Lemma index_byte_at c s i :
  String.index 0 (String c EmptyString) s = Some i ->
  exists t u, s = t +:+ String c u /\ has_byte c t = false /\ i = String.length t.
Proof.
  revert i. induction s as [|b s IH]; intros i; [done|].
  rewrite index_byte_cons.
  destruct (Ascii.eqb c b) eqn:Hb.
  - intros [= <-]. apply Ascii.eqb_eq in Hb as ->. by exists EmptyString, s.
  - destruct (String.index 0 (String c EmptyString) s) as [n|] eqn:Hi; [|done].
    intros [= <-]. destruct (IH n eq_refl) as (t & u & -> & Ht & ->).
    exists (String b t), u. cbn [has_byte]. by rewrite Hb, Ht.
Qed.

Lemma fields_not_nil c s : fields c s <> [].
Proof.
  destruct s as [|b s]; [done|]. simpl.
  destruct (Ascii.eqb c b); [done|]. by destruct (fields c s).
Qed.

Lemma fields_without c s : has_byte c s = false -> fields c s = [s].
Proof.
  induction s as [|b s IH]; [done|]. cbn [has_byte fields].
  intros [Hb Hs]%orb_false_iff. by rewrite Hb, (IH Hs).
Qed.

Lemma fields_app c t u :
  has_byte c t = false -> fields c (t +:+ String c u) = t :: fields c u.
Proof.
  induction t as [|b t IH].
  - intros _. rewrite append_nil. cbn [fields]. by rewrite Ascii.eqb_refl.
  - cbn [has_byte]. intros [Hb Ht]%orb_false_iff.
    rewrite append_cons. cbn [fields]. by rewrite Hb, (IH Ht).
Qed.

(** [Split] cuts at every occurrence of the byte. *)
Lemma Split_from_fields c fuel s :
  (String.length s <= fuel)%nat ->
  Split_from fuel s (String c EmptyString) = fields c s.
Proof.
  revert s. induction fuel as [|fuel IH]; intros s Hlen.
  - destruct s; [done|]. simpl in Hlen. lia.
  - cbn [Split_from].
    destruct (String.index 0 (String c EmptyString) s) as [i|] eqn:Hi.
    + destruct (index_byte_at c s i Hi) as (t & u & -> & Ht & ->).
      rewrite substring_0_app. cbn [String.length].
      replace (Z.of_nat (String.length t + 1)) with (Z.of_nat (String.length t) + 1)
        by lia.
      rewrite slice_from_app, (fields_app _ _ _ Ht). f_equal. apply IH.
      rewrite length_append in Hlen. cbn [String.length] in Hlen. lia.
    + apply index_byte_none_inv in Hi. by rewrite fields_without.
Qed.

Lemma Split_fields c s : Split s (String c EmptyString) = fields c s.
Proof. unfold Split. by apply Split_from_fields. Qed.

Lemma Join_empty l : Join l EmptyString = foldr String.append EmptyString l.
Proof.
  induction l as [|x [|y l] IH]; [done| |].
  - cbn. clear. induction x as [|b x IH]; [done|]. rewrite append_cons. by f_equal.
  - cbn [Join foldr] in *. by rewrite IH.
Qed.

Lemma delete_byte_fields c s :
  foldr String.append EmptyString (fields c s) = delete_byte c s.
Proof.
  induction s as [|b s IH]; [done|]. cbn [fields delete_byte].
  destruct (Ascii.eqb c b); [by cbn|].
  pose proof (fields_not_nil c s).
  destruct (fields c s) as [|x xs]; [done|].
  cbn [foldr] in *. by rewrite append_cons, IH.
Qed.

(** [ReplaceAll] with an empty replacement deletes the byte. *)
Lemma ReplaceAll_deletes c s :
  ReplaceAll s (String c EmptyString) EmptyString = delete_byte c s.
Proof.
  unfold ReplaceAll. by rewrite Split_fields, Join_empty, delete_byte_fields.
Qed.

Lemma delete_byte_gone c s : has_byte c (delete_byte c s) = false.
Proof.
  induction s as [|b s IH]; [done|]. cbn [delete_byte].
  destruct (Ascii.eqb c b) eqn:Hb; [done|]. cbn [has_byte]. by rewrite Hb, IH.
Qed.

Lemma delete_byte_absent c s : has_byte c s = false -> delete_byte c s = s.
Proof.
  induction s as [|b s IH]; [done|]. cbn [has_byte delete_byte].
  intros [Hb Hs]%orb_false_iff. by rewrite Hb, (IH Hs).
Qed.

(** The first two pieces of a line [key=value] or [key=value=...]. *)
Lemma Split_key_value k v tail :
  has_byte "=" k = false -> has_byte "=" v = false -> value_ends tail ->
  exists tl, Split (k +:+ "=" +:+ v +:+ tail) "=" = k :: v :: tl.
Proof.
  intros Hk Hv Htail.
  rewrite (Split_fields "="%char).
  change ("=" +:+ v +:+ tail) with (String "="%char (v +:+ tail)).
  rewrite (fields_app _ _ _ Hk).
  destruct Htail as [->|[w ->]].
  - exists []. f_equal. replace (v +:+ EmptyString) with v.
    + by apply fields_without.
    + clear. induction v as [|b v IH]; [done|]. rewrite append_cons. by f_equal.
  - rewrite (fields_app _ _ _ Hv). eauto.
Qed.

Lemma fields_head c e p0 p1 tl :
  fields c e = p0 :: p1 :: tl -> exists rest, e = p0 +:+ String c rest.
Proof.
  revert p0 p1 tl. induction e as [|b e IH]; intros p0 p1 tl; [done|].
  cbn [fields]. destruct (Ascii.eqb c b) eqn:Hb.
  - intros [= <- _]. apply Ascii.eqb_eq in Hb as ->. by exists e.
  - destruct (fields c e) as [|x [|y xs]] eqn:He; [done|done|].
    intros [= <- <- <-]. destruct (IH _ _ _ eq_refl) as [rest ->].
    by exists rest.
Qed.

(** ** What the caches hold *)

Lemma scanLabels_keeps k lines m :
  Forall (fun e => forall rest, e <> k +:+ "=" +:+ rest) lines ->
  (scanLabels lines m).1 !! k = m !! k.
Proof.
  intros Hall. revert m.
  induction Hall as [|e lines He Hall IH]; intros m; [done|]. cbn [scanLabels].
  destruct (Split e "=") as [|p0 [|p1 tl]] eqn:Hsplit; [done|done|].
  rewrite IH. apply lookup_insert_ne. intros ->.
  rewrite (Split_fields "="%char) in Hsplit.
  destruct (fields_head _ _ _ _ _ Hsplit) as [rest ->]. by apply (He rest).
Qed.

Lemma scanLabels_entry before k v tail later m :
  Forall has_equals before ->
  has_byte "=" k = false -> has_byte "=" v = false -> value_ends tail ->
  Forall (fun e => forall rest, e <> k +:+ "=" +:+ rest) later ->
  exists m' o,
    scanLabels (before ++ (k +:+ "=" +:+ v +:+ tail) :: later) m = (m', o)
    /\ m' !! k = Some (delete_byte quote_byte v)
    /\ (Forall has_equals later -> o = Done).
Proof.
  intros Hbefore Hk Hv Htail Hlater. revert m.
  induction Hbefore as [|e before He Hbefore IH]; intros m.
  - destruct (Split_key_value k v tail Hk Hv Htail) as [tl Hsplit].
    cbn [app scanLabels]. rewrite Hsplit.
    change quote with (String quote_byte EmptyString). rewrite ReplaceAll_deletes.
    pose proof (scanLabels_keeps k later (<[k:=delete_byte quote_byte v]> m) Hlater)
      as Hkeep.
    destruct (scanLabels later (<[k:=delete_byte quote_byte v]> m)) as [m' o] eqn:Hscan.
    exists m', o. split; [done|]. split.
    + cbn in Hkeep. by rewrite Hkeep, lookup_insert_eq.
    + intros Hall.
      destruct (scanLabels_done later (<[k:=delete_byte quote_byte v]> m) Hall)
        as [m'' Hdone].
      rewrite Hscan in Hdone. by injection Hdone.
  - cbn [app scanLabels].
    destruct (Split_with_byte _ _ He) as (p0 & p1 & tl & Hsplit).
    change (String "="%char EmptyString) with "=" in Hsplit. rewrite Hsplit. apply IH.
Qed.

Lemma scanEnviron_keeps lookupMap k es m :
  Forall (fun e => forall rest, e <> k +:+ "=" +:+ rest) es ->
  (scanEnviron false lookupMap es m).1 !! k = m !! k.
Proof.
  intros Hall. revert m.
  induction Hall as [|e es He Hall IH]; intros m; [done|]. cbn [scanEnviron negb orb].
  destruct (Split e "=") as [|p0 [|p1 tl]] eqn:Hsplit; [done|done|].
  rewrite IH. apply lookup_insert_ne. intros ->.
  rewrite (Split_fields "="%char) in Hsplit.
  destruct (fields_head _ _ _ _ _ Hsplit) as [rest ->]. by apply (He rest).
Qed.

Lemma scanEnviron_entry lookupMap before k v tail later m :
  Forall has_equals before ->
  has_byte "=" k = false -> has_byte "=" v = false -> value_ends tail ->
  Forall (fun e => forall rest, e <> k +:+ "=" +:+ rest) later ->
  exists m' o,
    scanEnviron false lookupMap (before ++ (k +:+ "=" +:+ v +:+ tail) :: later) m
    = (m', o)
    /\ m' !! k = Some v
    /\ (Forall has_equals later -> o = Done).
Proof.
  intros Hbefore Hk Hv Htail Hlater. revert m.
  induction Hbefore as [|e before He Hbefore IH]; intros m.
  - destruct (Split_key_value k v tail Hk Hv Htail) as [tl Hsplit].
    cbn [app scanEnviron negb orb]. rewrite Hsplit.
    pose proof (scanEnviron_keeps lookupMap k later (<[k:=v]> m) Hlater) as Hkeep.
    destruct (scanEnviron false lookupMap later (<[k:=v]> m)) as [m' o] eqn:Hscan.
    exists m', o. split; [done|]. split.
    + cbn in Hkeep. by rewrite Hkeep, lookup_insert_eq.
    + intros Hall.
      destruct (scanEnviron_outcome lookupMap later (<[k:=v]> m))
        as [m'' [[Hm _]|[_ Hno]]]; [|done].
      rewrite Hscan in Hm. by injection Hm.
  - cbn [app scanEnviron negb orb].
    destruct (Split_with_byte _ _ He) as (p0 & p1 & tl & Hsplit).
    change (String "="%char EmptyString) with "=" in Hsplit. rewrite Hsplit. apply IH.
Qed.

(** A line [key=value] of the label file is served under its key with the
    double quotes taken out of the value, whatever comes before it in the
    file; what follows a second [=] on the line is dropped, and a later line
    with the same key replaces it.  The entry is in the cache even when a
    later line makes the first call panic. *)
Theorem label_line_is_served_unquoted
  (g : World) (before later : list string) (k v tail : string)
  (scanErr : option error) :
  podLabels g = None ->
  files g (labelsFilename g)
  = inr ((before ++ (k +:+ "=" +:+ v +:+ tail) :: later)%list, scanErr) ->
  Forall has_equals before ->
  has_byte "=" k = false -> has_byte "=" v = false -> value_ends tail ->
  Forall (fun e => forall rest, e <> k +:+ "=" +:+ rest) later ->
  k <> "error" ->
  exists labels,
    podLabels (snd (getServiceLabels g)) = Some labels
    /\ labels !! k = Some (delete_byte quote_byte v)
    /\ has_byte quote_byte (delete_byte quote_byte v) = false
    /\ (Forall has_equals later -> fst (getServiceLabels g) = Ok labels).
Proof.
  intros Hc Hfile Hbefore Hk Hv Htail Hlater Herr.
  unfold getServiceLabels. rewrite Hc, Hfile.
  destruct (scanLabels_entry before k v tail later ∅ Hbefore Hk Hv Htail Hlater)
    as (m' & o & -> & Hm & Hdone).
  destruct o as [|msg].
  - destruct scanErr as [[e]|]; eexists; (split; [reflexivity|]).
    + rewrite lookup_insert_ne by done. split; [done|].
      split; [apply delete_byte_gone|done].
    + split; [done|]. split; [apply delete_byte_gone|done].
  - exists m'. split; [done|]. split; [done|]. split; [apply delete_byte_gone|].
    intros Hall. by specialize (Hdone Hall).
Qed.

Lemma label_line_is_served_unquoted_witness :
  exists labels,
    podLabels
      (snd (getServiceLabels
              (world_with_labels
                 ["tier=web"; "app=" +:+ quote +:+ "api" +:+ quote +:+ "=v1"; "broken"])))
    = Some labels
    /\ labels !! "app" = Some "api"
    /\ has_byte quote_byte "api" = false
    /\ (Forall has_equals ["broken"] ->
        fst (getServiceLabels
               (world_with_labels
                  ["tier=web"; "app=" +:+ quote +:+ "api" +:+ quote +:+ "=v1"; "broken"]))
        = Ok labels).
Proof.
  apply (label_line_is_served_unquoted
           (world_with_labels
              ["tier=web"; "app=" +:+ quote +:+ "api" +:+ quote +:+ "=v1"; "broken"])
           ["tier=web"] ["broken"] "app" (quote +:+ "api" +:+ quote) "=v1" None).
  - reflexivity.
  - reflexivity.
  - repeat constructor.
  - reflexivity.
  - reflexivity.
  - right. by exists "v1".
  - constructor; [|constructor]. intros rest. discriminate.
  - discriminate.
Defined.

(** The entry [key=value] of the process environment is exposed under its
    key, whether or not the key is one of [filterEnvVariables]: the filter is
    switched off.  The value stops at a second [=].  The key is listed once,
    as [os.Environ] lists it (the runtime keeps the first entry of a repeated
    key and drops the others). *)
Theorem environment_entry_is_exposed
  (g : World) (before later : list string) (k v tail : string) :
  environmentVariables g = None ->
  environ g = (before ++ (k +:+ "=" +:+ v +:+ tail) :: later)%list ->
  Forall has_equals before ->
  has_byte "=" k = false -> has_byte "=" v = false -> value_ends tail ->
  Forall (fun e => forall rest, e <> k +:+ "=" +:+ rest) (before ++ later) ->
  exists vars,
    environmentVariables (snd (getEnvironmentVariables g)) = Some vars
    /\ vars !! k = Some v
    /\ (Forall has_equals later -> fst (getEnvironmentVariables g) = Ok vars).
Proof.
  intros Hc Henv Hbefore Hk Hv Htail [_ Hlater]%Forall_app.
  unfold getEnvironmentVariables. rewrite Hc, Henv.
  match goal with |- context [scanEnviron false ?lm _ ∅] =>
    destruct (scanEnviron_entry lm before k v tail later ∅ Hbefore Hk Hv Htail Hlater)
      as (m' & o & -> & Hm & Hdone) end.
  destruct o as [|msg]; exists m'; (split; [done|]); (split; [done|]); [done|].
  intros Hall. by specialize (Hdone Hall).
Qed.

Lemma environment_entry_is_exposed_witness :
  exists vars,
    environmentVariables
      (snd (getEnvironmentVariables
              (world_with_environ ["HOME=/root"; "API_TOKEN=c2VjcmV0=="; "PATH=/bin"])))
    = Some vars
    /\ vars !! "API_TOKEN" = Some "c2VjcmV0"
    /\ (Forall has_equals ["PATH=/bin"] ->
        fst (getEnvironmentVariables
               (world_with_environ ["HOME=/root"; "API_TOKEN=c2VjcmV0=="; "PATH=/bin"]))
        = Ok vars).
Proof.
  apply (environment_entry_is_exposed
           (world_with_environ ["HOME=/root"; "API_TOKEN=c2VjcmV0=="; "PATH=/bin"])
           ["HOME=/root"] ["PATH=/bin"] "API_TOKEN" "c2VjcmV0" "==").
  - reflexivity.
  - reflexivity.
  - repeat constructor.
  - reflexivity.
  - reflexivity.
  - right. by exists "=".
  - repeat constructor; intros rest; discriminate.
Defined.

(** ** The caches are filled once *)

Lemma getEnvironmentVariables_cached g vars :
  environmentVariables g = Some vars -> getEnvironmentVariables g = (Ok vars, g).
Proof. intros Hc. unfold getEnvironmentVariables. by rewrite Hc. Qed.

Lemma getServiceLabels_cached g labels :
  podLabels g = Some labels -> getServiceLabels g = (Ok labels, g).
Proof. intros Hc. unfold getServiceLabels. by rewrite Hc. Qed.

Lemma getEnvironmentVariables_fills g :
  is_Some (environmentVariables (snd (getEnvironmentVariables g)))
  /\ podLabels (snd (getEnvironmentVariables g)) = podLabels g.
Proof.
  unfold getEnvironmentVariables.
  destruct (environmentVariables g) as [vars|] eqn:Hc.
  { cbn [snd]. rewrite Hc. eauto. }
  by destruct (scanEnviron _ _ _ _) as [vars [|msg]].
Qed.

Lemma getServiceLabels_fills g :
  is_Some (podLabels (snd (getServiceLabels g)))
  /\ environmentVariables (snd (getServiceLabels g)) = environmentVariables g.
Proof.
  unfold getServiceLabels.
  destruct (podLabels g) as [labels|] eqn:Hc.
  { cbn [snd]. rewrite Hc. eauto. }
  destruct (files g (labelsFilename g)) as [[e]|[lines scanErr]]; [done|].
  by destruct (scanLabels lines ∅) as [labels [|msg]].
Qed.

(** What a call of [getServiceInfo] leaves in the caches: the environment is
    always there, and the labels are unless the environment made it panic. *)
Lemma getServiceInfo_fills s g :
  is_Some (environmentVariables (snd (getServiceInfo s g)))
  /\ (is_Some (environmentVariables g) -> is_Some (podLabels (snd (getServiceInfo s g)))).
Proof.
  unfold getServiceInfo.
  destruct (getEnvironmentVariables_fills g) as [Henv Hl].
  destruct (getEnvironmentVariables g) as [[vars|msg] g1] eqn:Hg1; cbn [snd] in *.
  - destruct (getServiceLabels_fills g1) as [Hlab He].
    destruct (getServiceLabels g1) as [[labels|msg] g2]; cbn [snd] in *;
      (split; [congruence|done]).
  - split; [done|]. intros [vars Hc].
    by rewrite (getEnvironmentVariables_cached g vars Hc) in Hg1.
Qed.

(** However broken the environment listing and the label file are,
    [getServiceInfo] panics at most twice in the life of the process: the
    first call leaves the environment cached, the second the labels, and from
    then on every call returns.  Between the calls the world may change in
    anything but the two caches. *)
Theorem getServiceInfo_panics_at_most_twice (s1 s2 s3 : service) (g g1 g2 : World) :
  environmentVariables g1 = environmentVariables (snd (getServiceInfo s1 g)) ->
  podLabels g1 = podLabels (snd (getServiceInfo s1 g)) ->
  environmentVariables g2 = environmentVariables (snd (getServiceInfo s2 g1)) ->
  podLabels g2 = podLabels (snd (getServiceInfo s2 g1)) ->
  exists info, getServiceInfo s3 g2 = (Ok info, g2).
Proof.
  intros He1 _ He2 Hl2.
  destruct (getServiceInfo_fills s1 g) as [Henv1 _]. rewrite <- He1 in Henv1.
  destruct (getServiceInfo_fills s2 g1) as [Henv2 Hlab2].
  specialize (Hlab2 Henv1). rewrite <- He2 in Henv2. rewrite <- Hl2 in Hlab2.
  destruct Henv2 as [vars Hvars]. destruct Hlab2 as [labels Hlabels].
  unfold getServiceInfo.
  rewrite (getEnvironmentVariables_cached g2 vars Hvars).
  rewrite (getServiceLabels_cached g2 labels Hlabels). eauto.
Qed.

Lemma getServiceInfo_panics_at_most_twice_witness :
  exists info,
    getServiceInfo (newService "Inspector")
      (snd (getServiceInfo (newService "Inspector")
              (snd (getServiceInfo (newService "Inspector") broken_world))))
    = (Ok info,
       snd (getServiceInfo (newService "Inspector")
              (snd (getServiceInfo (newService "Inspector") broken_world)))).
Proof.
  apply (getServiceInfo_panics_at_most_twice
           (newService "Inspector") (newService "Inspector") (newService "Inspector")
           broken_world
           (snd (getServiceInfo (newService "Inspector") broken_world))
           (snd (getServiceInfo (newService "Inspector")
                   (snd (getServiceInfo (newService "Inspector") broken_world)))));
    reflexivity.
Defined.

(** What [getServiceInfo] returns is what it leaves in the caches, under the
    name it was given and the time at which it was called. *)
Lemma getServiceInfo_ok s g g1 info :
  getServiceInfo s g = (Ok info, g1) ->
  exists vars labels,
    info = JObject (<["name" := JString (name s)]>
                    (<["currentTimestamp" := JTime (clock g)]>
                     (<["environment" := json_of_strings vars]>
                      (<["labels" := json_of_strings labels]> ∅))))
    /\ environmentVariables g1 = Some vars /\ podLabels g1 = Some labels.
Proof.
  intros Hinfo. unfold getServiceInfo in Hinfo.
  destruct (getEnvironmentVariables_fills g) as [[vars0 Hvars0] _].
  destruct (getEnvironmentVariables g) as [[vars|msg] ga] eqn:Hga; [|done].
  cbn [snd] in Hvars0.
  destruct (getServiceLabels_fills ga) as [[labels0 Hlabels0] Hkeep].
  destruct (getServiceLabels ga) as [[labels|msg] gb] eqn:Hgb; [|done].
  cbn [snd] in Hlabels0, Hkeep. injection Hinfo as <- <-.
  assert (vars0 = vars) as ->.
  { unfold getEnvironmentVariables in Hga.
    destruct (environmentVariables g) as [c|] eqn:Hc.
    - injection Hga as <- <-. congruence.
    - destruct (scanEnviron _ _ _ _) as [c [|msg]]; [|done].
      injection Hga as <- <-. cbn in Hvars0. congruence. }
  assert (labels0 = labels) as ->.
  { unfold getServiceLabels in Hgb.
    destruct (podLabels ga) as [c|] eqn:Hc.
    - injection Hgb as <- <-. congruence.
    - destruct (files ga (labelsFilename ga)) as [[e]|[lines scanErr]].
      + injection Hgb as <- <-. cbn in Hlabels0. congruence.
      + destruct (scanLabels lines ∅) as [c [|msg]]; [|done].
        injection Hgb as <- <-. cbn in Hlabels0. congruence. }
  exists vars, labels. split; [done|]. split; congruence.
Qed.

(** Once [getServiceInfo] has returned, every later call returns the same
    environment and the same labels, whatever the process environment and
    the label file have become: only the timestamp follows the clock, and
    the name is the caller's. *)
Theorem getServiceInfo_serves_from_cache (s s' : service) (g g1 g2 : World) (info : json) :
  getServiceInfo s g = (Ok info, g1) ->
  environmentVariables g2 = environmentVariables g1 ->
  podLabels g2 = podLabels g1 ->
  exists vars labels,
    info = JObject (<["name" := JString (name s)]>
                    (<["currentTimestamp" := JTime (clock g)]>
                     (<["environment" := json_of_strings vars]>
                      (<["labels" := json_of_strings labels]> ∅))))
    /\ getServiceInfo s' g2
       = (Ok (JObject (<["name" := JString (name s')]>
                       (<["currentTimestamp" := JTime (clock g2)]>
                        (<["environment" := json_of_strings vars]>
                         (<["labels" := json_of_strings labels]> ∅))))), g2).
Proof.
  intros Hinfo He Hl.
  destruct (getServiceInfo_ok s g g1 info Hinfo) as (vars & labels & -> & Hv & Hlab).
  exists vars, labels. split; [done|].
  unfold getServiceInfo.
  rewrite (getEnvironmentVariables_cached g2 vars) by congruence.
  by rewrite (getServiceLabels_cached g2 labels) by congruence.
Qed.

Lemma getServiceInfo_serves_from_cache_witness :
  exists vars labels,
    match fst (getServiceInfo (newService "Inspector") sample_world) with
    | Ok info => info
    | Panicked _ => JString EmptyString
    end
    = JObject (<["name" := JString "Inspector"]>
               (<["currentTimestamp" := JTime 0]>
                (<["environment" := json_of_strings vars]>
                 (<["labels" := json_of_strings labels]> ∅))))
    /\ getServiceInfo (newService "Other")
         (set_clock (snd (getServiceInfo (newService "Inspector") sample_world)) 7)
       = (Ok (JObject (<["name" := JString "Other"]>
                       (<["currentTimestamp" := JTime 7]>
                        (<["environment" := json_of_strings vars]>
                         (<["labels" := json_of_strings labels]> ∅))))),
          set_clock (snd (getServiceInfo (newService "Inspector") sample_world)) 7).
Proof.
  apply (getServiceInfo_serves_from_cache
           (newService "Inspector") (newService "Other") sample_world
           (snd (getServiceInfo (newService "Inspector") sample_world))
           (set_clock (snd (getServiceInfo (newService "Inspector") sample_world)) 7));
    reflexivity.
Defined.

(** ** The primary handler as a whole *)

Lemma cancel_WithTimeout g : cancel (set_timers g (timers g + 1)) = g.
Proof.
  destruct g. unfold cancel, set_timers. cbn. f_equal. lia.
Qed.

Lemma getRequestInfo_WithContext r c :
  getRequestInfo (WithContext r c) = getRequestInfo r.
Proof. reflexivity. Qed.

(** The two health endpoints of the primary listener answer 200 with an
    empty body whatever the method, the headers, the environment and the label
    file are: they never panic, never touch a cache, release their timer, and
    add one access line of 0 bytes to the log. *)
Theorem health_endpoints_leave_world_alone `{Codec} {W} `{ResponseWriter W}
  (w : W) (r : Request) (g : World) :
  Path r = "/_ah/health/" \/ Path r = "/_ah/ready/" ->
  exists l g',
    primaryHandler W _ w r g = (Done, rw_WriteHeader StatusOK w, g')
    /\ logged g' = (logged g ++ [Access l])%list
    /\ al_status l = StatusOK /\ al_length l = 0
    /\ timers g' = timers g
    /\ podLabels g' = podLabels g
    /\ environmentVariables g' = environmentVariables g.
Proof.
  intros Hp. unfold primaryHandler, fixTracingHeader, getRouter.
  destruct (fixTracingHeader_request_target r) as [-> _].
  destruct Hp as [->| ->]; simpl (String.eqb _ _); cbv iota;
    cbn [adapt]; unfold logHTTPRequest, addRequestTimeout, healthCheck;
    cbn [WithTimeout statusWriter.inner statusWriter.status statusWriter.length
         rw_WriteHeader statusWriter_ResponseWriter];
    unfold statusWriter_WriteHeader;
    cbn [statusWriter.inner statusWriter.status statusWriter.length];
    rewrite cancel_WithTimeout;
    (eexists _, _; split; [reflexivity|]); done.
Qed.

Lemma health_endpoints_leave_world_alone_witness :
  exists l g',
    primaryHandler (H := silent_codec) response _ response_empty
      (request_at "/_ah/ready/") broken_world
    = (Done, rw_WriteHeader StatusOK response_empty, g')
    /\ logged g' = (logged broken_world ++ [Access l])%list
    /\ al_status l = StatusOK /\ al_length l = 0
    /\ timers g' = timers broken_world
    /\ podLabels g' = podLabels broken_world
    /\ environmentVariables g' = environmentVariables broken_world.
Proof.
  apply (health_endpoints_leave_world_alone (H := silent_codec)
           response_empty (request_at "/_ah/ready/") broken_world).
  right. reflexivity.
Defined.

(** On a documented path the request's timer is released whether the
    handler returns or panics; a request that returns adds exactly one access
    line to the log, and one that panics adds none. *)
Theorem documented_request_accounting `{Codec} {W} `{ResponseWriter W}
  (w : W) (r : Request) (g : World) :
  documented (Path r) ->
  exists o w' g',
    primaryHandler W _ w r g = (o, w', g')
    /\ timers g' = timers g
    /\ match o with
       | Done => exists l, logged g' = (logged g ++ [Access l])%list
       | Panic _ => logged g' = logged g
       end.
Proof.
  intros Hdoc. unfold primaryHandler, fixTracingHeader, getRouter.
  destruct (fixTracingHeader_request_target r) as [-> _].
  destruct (getServiceInfo_run (newService "Inspector") (set_timers g (timers g + 1)))
    as (res & g1 & Hinfo & Hclock & Hlogged & Htimers & _).
  cbn [clock logged timers set_timers] in Hclock, Hlogged, Htimers.
  destruct Hdoc as [->|[->|[->| ->]]]; simpl (String.eqb _ _); cbv iota; cbn [adapt];
    unfold logHTTPRequest, addRequestTimeout, indexHandler, callHandler, healthCheck;
    cbn [WithTimeout].
  - rewrite Hinfo. destruct res as [info|msg].
    + eexists _, _, _. split; [reflexivity|].
      cbn [timers clock logged emit cancel set_timers set_logged].
      split; [lia|]. rewrite Hlogged. eauto.
    + eexists _, _, _. split; [reflexivity|].
      cbn [timers clock logged emit cancel set_timers set_logged].
      split; [lia|]. done.
  - rewrite Hinfo. destruct res as [info|msg].
    + eexists _, _, _. split; [reflexivity|].
      cbn [timers clock logged emit cancel set_timers set_logged].
      split; [lia|]. rewrite Hlogged. eauto.
    + eexists _, _, _. split; [reflexivity|].
      cbn [timers clock logged emit cancel set_timers set_logged].
      split; [lia|]. done.
  - eexists _, _, _. split; [reflexivity|].
    cbn [timers clock logged emit cancel set_timers set_logged].
    split; [lia|]. eauto.
  - eexists _, _, _. split; [reflexivity|].
    cbn [timers clock logged emit cancel set_timers set_logged].
    split; [lia|]. eauto.
Qed.

Lemma documented_request_accounting_witness :
  exists o w' g',
    primaryHandler (H := silent_codec) response _ response_empty
      (request_at "/") broken_world = (o, w', g')
    /\ timers g' = timers broken_world
    /\ match o with
       | Done => exists l, logged g' = (logged broken_world ++ [Access l])%list
       | Panic _ => logged g' = logged broken_world
       end.
Proof.
  apply (documented_request_accounting (H := silent_codec)
           response_empty (request_at "/") broken_world).
  left. reflexivity.
Defined.

(** What a returning request for [/] writes: the content type, and one JSON
    object with the service (named Inspector, stamped with the time of the
    call, with the environment and the labels now in the caches) and the
    request as it looks after the trace header was normalised; then a
    newline. *)
Theorem index_response_shape `{Codec}
  (w w' : response) (r : Request) (g g' : World) :
  Path r = "/" ->
  primaryHandler response _ w r g = (Done, w', g') ->
  exists vars labels,
    environmentVariables g' = Some vars /\ podLabels g' = Some labels
    /\ resp_header w' = Header_Set (resp_header w) "Content-Type" "application/json"
    /\ resp_body w' =
       (resp_body w
        ++ json_Marshal
             (JObject
                (<["request" := getRequestInfo (fixTracingHeader_request r)]>
                   (<["service" :=
                        JObject (<["name" := JString "Inspector"]>
                                 (<["currentTimestamp" := JTime (clock g)]>
                                  (<["environment" := json_of_strings vars]>
                                   (<["labels" := json_of_strings labels]> ∅))))]> ∅)))
        ++ [Byte.x0a])%list.
Proof.
  intros Hp. unfold primaryHandler, fixTracingHeader, getRouter.
  destruct (fixTracingHeader_request_target r) as [-> _]. rewrite Hp.
  simpl (String.eqb _ _). cbv iota. cbn [adapt].
  unfold logHTTPRequest, addRequestTimeout, indexHandler. cbn [WithTimeout].
  destruct (getServiceInfo (newService "Inspector") (set_timers g (timers g + 1)))
    as [[info|msg] g1] eqn:Hinfo; [|done].
  destruct (getServiceInfo_ok _ _ _ _ Hinfo) as (vars & labels & -> & Hv & Hl).
  intros [= <- <-]. exists vars, labels.
  split; [done|]. split; [done|]. split; reflexivity.
Qed.

Lemma index_response_shape_witness :
  exists vars labels,
    environmentVariables
      (snd (primaryHandler (H := silent_codec) response _ response_empty
              (request_at "/") sample_world)) = Some vars
    /\ podLabels
         (snd (primaryHandler (H := silent_codec) response _ response_empty
                 (request_at "/") sample_world)) = Some labels
    /\ resp_header
         (snd (fst (primaryHandler (H := silent_codec) response _ response_empty
                      (request_at "/") sample_world)))
       = Header_Set (resp_header response_empty) "Content-Type" "application/json"
    /\ resp_body
         (snd (fst (primaryHandler (H := silent_codec) response _ response_empty
                      (request_at "/") sample_world)))
       = (resp_body response_empty
          ++ json_Marshal (Codec := silent_codec)
               (JObject
                  (<["request" := getRequestInfo (fixTracingHeader_request (request_at "/"))]>
                     (<["service" :=
                          JObject (<["name" := JString "Inspector"]>
                                   (<["currentTimestamp" := JTime (clock sample_world)]>
                                    (<["environment" := json_of_strings vars]>
                                     (<["labels" := json_of_strings labels]> ∅))))]> ∅)))
          ++ [Byte.x0a])%list.
Proof.
  apply (index_response_shape (H := silent_codec) response_empty
           (snd (fst (primaryHandler (H := silent_codec) response _ response_empty
                        (request_at "/") sample_world)))
           (request_at "/") sample_world
           (snd (primaryHandler (H := silent_codec) response _ response_empty
                   (request_at "/") sample_world)));
    reflexivity.
Defined.

(** ** Before the signal *)

Lemma serving_started t0 : serving (started t0).
Proof. split; try done. by left. Qed.

Lemma serving_step g a p p' :
  a <> Signal -> step g a p = Some p' -> serving p -> serving p'.
Proof.
  intros Ha Hstep [Hi Hs Hp Hl Hc Hm Hx Hst]. unfold step in Hstep.
  destruct (exited p) eqn:Hex; [done|].
  destruct a as [d| |[| |] ret]; [| done | | |].
  - destruct (0 <=? d); [|done]. injection Hstep as <-.
    split; trace_simpl; try done. by rewrite Hex.
  - unfold step_main in Hstep.
    destruct Hm as [Hm|Hm]; rewrite Hm in Hstep; trace_simpl.
    + rewrite Hp in Hstep. destruct ret as [e|]; injection Hstep as <-;
        split; trace_simpl; rewrite ?Hst, ?Hex; try done; try (by right).
      by left.
    + by rewrite Hp in Hstep.
  - unfold step_sig in Hstep. by rewrite Hs, Hi in Hstep.
  - unfold step_live in Hstep.
    destruct (liveAt p); trace_simpl; rewrite ?Hl in Hstep; [|done|done].
    destruct ret as [e|]; injection Hstep as <-;
      split; trace_simpl; rewrite ?Hst, ?Hex; try done.
Qed.

Lemma serving_run g acts p p' :
  ~ In Signal acts -> run g acts p = Some p' -> serving p -> serving p'.
Proof.
  revert p. induction acts as [|a acts IH]; intros p Hno; simpl.
  - by intros [= <-].
  - destruct (step g a p) as [p1|] eqn:Hstep; [|done].
    intros Hrun Hsv. apply (IH p1); [|done|].
    + intros Hin. apply Hno. by right.
    + apply (serving_step g a p); [|done|done]. intros ->. apply Hno. by left.
Qed.

(** The server does not stop by itself.  In a run in which no signal
    arrives, whatever the scheduler does and however long it lasts, neither
    server is told to shut down, [main] is still in [ListenAndServe] (or has
    not reached it), nothing of the shutdown sequence has happened, and the
    process has not exited with code 0. *)
Theorem serves_until_signalled
  (g : World) (t0 : Z) (acts : list action) (p : proc) :
  run g acts (started t0) = Some p ->
  ~ In Signal acts ->
  primaryShuttingDown p = false /\ livenessShuttingDown p = false
  /\ allConsClosed p = false
  /\ (mainAt p = MListen \/ mainAt p = MServe)
  /\ exited p <> Some 0
  /\ stage_events (events p) = [].
Proof.
  intros Hrun Hno.
  by destruct (serving_run g acts _ _ Hno Hrun (serving_started t0)).
Qed.

Lemma serves_until_signalled_witness :
  primaryShuttingDown quiet_final = false /\ livenessShuttingDown quiet_final = false
  /\ allConsClosed quiet_final = false
  /\ (mainAt quiet_final = MListen \/ mainAt quiet_final = MServe)
  /\ exited quiet_final <> Some 0
  /\ stage_events (events quiet_final) = [].
Proof.
  apply (serves_until_signalled sample_world 0 quiet_run quiet_final).
  - vm_compute. reflexivity.
  - intros [Hin|[Hin|[Hin|[Hin|[]]]]]; discriminate Hin.
Defined.

(** ** The request timeout *)

Lemma getEnvironmentVariables_set_timers g n :
  getEnvironmentVariables (set_timers g n)
  = (fst (getEnvironmentVariables g), set_timers (snd (getEnvironmentVariables g)) n).
Proof.
  unfold getEnvironmentVariables. cbn [environmentVariables environ set_timers].
  destruct (environmentVariables g) as [vars|]; [done|].
  by destruct (scanEnviron _ _ _ _) as [vars [|msg]].
Qed.

Lemma getServiceLabels_set_timers g n :
  getServiceLabels (set_timers g n)
  = (fst (getServiceLabels g), set_timers (snd (getServiceLabels g)) n).
Proof.
  unfold getServiceLabels. cbn [podLabels files set_timers].
  destruct (podLabels g) as [labels|]; [done|].
  change (labelsFilename (set_timers g n)) with (labelsFilename g).
  destruct (files g (labelsFilename g)) as [[e]|[lines [[e]|]]]; [done| |];
    by destruct (scanLabels lines ∅) as [labels [|msg]].
Qed.

Lemma getServiceInfo_set_timers s g n :
  getServiceInfo s (set_timers g n)
  = (fst (getServiceInfo s g), set_timers (snd (getServiceInfo s g)) n).
Proof.
  unfold getServiceInfo. rewrite getEnvironmentVariables_set_timers.
  cbn [clock set_timers].
  destruct (getEnvironmentVariables g) as [[vars|msg] g1]; [|done]. cbn [fst snd].
  rewrite getServiceLabels_set_timers.
  by destruct (getServiceLabels g1) as [[labels|msg] g2].
Qed.

Lemma cancel_set_timers g g1 :
  timers g1 = timers g -> cancel (set_timers g1 (timers g + 1)) = g1.
Proof.
  intros Ht. destruct g1. unfold cancel, set_timers. cbn in *. subst. f_equal. lia.
Qed.

(** For each handler the router wraps, [addRequestTimeout] changes nothing:
    the outcome, what is written and the world afterwards are those of the
    bare handler.  No handler reads the context it is given (the outbound call
    of [/call/] is made without it), and the timer is released on return and
    on panic alike. *)
Theorem addRequestTimeout_changes_nothing `{Codec} {W} `{ResponseWriter W}
  (s : service) (w : W) (r : Request) (g : World) :
  addRequestTimeout healthCheck W _ w r g = healthCheck W _ w r g
  /\ addRequestTimeout (indexHandler s) W _ w r g = indexHandler s W _ w r g
  /\ addRequestTimeout (callHandler s) W _ w r g = callHandler s W _ w r g.
Proof.
  destruct (getServiceInfo_run s g) as (res & g1 & Hinfo & _ & _ & Ht & Hf & _).
  unfold addRequestTimeout, healthCheck, indexHandler, callHandler. cbn [WithTimeout].
  rewrite getServiceInfo_set_timers, Hinfo. cbn [fst snd].
  rewrite !getRequestInfo_WithContext.
  split; [by rewrite cancel_WithTimeout|].
  destruct res as [info|msg]; rewrite (cancel_set_timers g g1 Ht); [|done].
  split; [done|]. do 3 f_equal.
Qed.
